(** * The read half of a WebRTC stream: [p2p/transport/webrtc/stream_read.go]

    A shallow embedding of [webRTCStreamReader.Read], [SetReadDeadline],
    [getReadDeadline] and [CloseRead], and the properties of the read path:
    deadline handling, ordered delivery, end of stream, abrupt termination,
    payload and flag handling, and the one-shot close-read latch. *)

From Stdlib Require Import String ZArith Bool Lia PeanoNat List.
From Equations Require Import Equations.
From Equations.Prop Require Import Logic.
Import ListNotations.

Set Implicit Arguments.

(* ===================================================================== *)
(** ** Go values                                                          *)
(* ===================================================================== *)

Definition bytes := list Byte.byte.

(** [time.Time], as an instant on the integer line. *)
Definition time := Z.

(** [t.Before(u)] *)
Definition Before (t u : time) : bool := (t <? u)%Z.

(** Non-nil Go error values: the three sentinels the reader names, any other
    error, and an error wrapping another one with [%w]. *)
Inductive goerror : Type :=
| io_EOF
| io_ErrClosedPipe
| os_ErrDeadlineExceeded
| errors_New (msg : string)
| fmt_Errorf_w (msg : string) (wrapped : goerror).

(** A Go [error]: [None] is [nil]. *)
Definition error := option goerror.

Fixpoint goerror_eqb (a b : goerror) : bool :=
  match a, b with
  | io_EOF, io_EOF => true
  | io_ErrClosedPipe, io_ErrClosedPipe => true
  | os_ErrDeadlineExceeded, os_ErrDeadlineExceeded => true
  | errors_New m, errors_New m' => String.eqb m m'
  | fmt_Errorf_w m e, fmt_Errorf_w m' e' => String.eqb m m' && goerror_eqb e e'
  | _, _ => false
  end.

(** [errors.Is(err, target)]: [err] or an error in its [Unwrap] chain is
    [target]. *)
Fixpoint errors_Is (err target : goerror) : bool :=
  goerror_eqb err target ||
  match err with
  | fmt_Errorf_w _ wrapped => errors_Is wrapped target
  | _ => false
  end.

(** [copy(dst, src)]: overwrites the first [min (len dst) (len src)] elements
    of [dst] and returns their number. *)
Definition copy (dst src : bytes) : bytes * nat :=
  let n := Nat.min (length dst) (length src) in
  (firstn n src ++ skipn n dst, n).

(* ===================================================================== *)
(** ** Protocol messages                                                  *)
(* ===================================================================== *)

(** Modelled from the spec: the [pb] package is not part of the sources; the
    reader only names [pb.Message_STOP_SENDING].  The flags are the
    completion flag, stop-sending and the reset flag of the stream-control
    protocol. *)
Inductive Message_Flag : Type :=
| Message_FIN
| Message_STOP_SENDING
| Message_RESET.

(** [pb.Message]: both fields are optional; [None] is the nil pointer
    (for [Flag]) and the nil slice (for [Message]). *)
Record pb_Message : Type := mkMessage {
  Flag : option Message_Flag;
  Message : option bytes
}.

(** [msg.GetMessage()] *)
Definition GetMessage (msg : pb_Message) : bytes :=
  match Message msg with Some p => p | None => [] end.

Definition isSome {A} (o : option A) : bool :=
  match o with Some _ => true | None => false end.

(** Modelled from the spec: the Stream State Handler's states are declared
    outside the sources; the reader only names [stateClosed].  A stream is
    open, half closed in one direction, or closed in both. *)
Inductive channelState : Type :=
| stateOpen
| stateReadClosed
| stateWriteClosed
| stateClosed.

Definition channelState_eqb (a b : channelState) : bool :=
  match a, b with
  | stateOpen, stateOpen | stateReadClosed, stateReadClosed
  | stateWriteClosed, stateWriteClosed | stateClosed, stateClosed => true
  | _, _ => false
  end.

(* ===================================================================== *)
(** ** The owning stream and the other collaborators                      *)
(* ===================================================================== *)

(** What the reader calls on [r.stream]; [S] is the state of the owning
    stream (its close cause, its state handler, its writer and its data
    channel).  Each operation is a function of that state. *)
Class OwningStream (S : Type) : Type := {
  (** [r.stream.isClosed()] *)
  isClosed : S -> bool;
  (** [r.stream.closeErr.Get()]: the stored value and whether one was set *)
  closeErr_Get : S -> error * bool;
  (** [r.stream.stateHandler.AllowRead()] *)
  AllowRead : S -> bool;
  (** [r.stream.Reset()] *)
  Reset : S -> S;
  (** [r.stream.processIncomingFlag(flag)] *)
  processIncomingFlag : Message_Flag -> S -> S;
  (** [r.stream.writer.writer.Exec(... writer.WriteMsg(msg) ...)] *)
  WriteMsg : pb_Message -> S -> error * S;
  (** [r.stream.stateHandler.CloseRead()] *)
  stateHandler_CloseRead : S -> channelState * S;
  (** [r.stream.close(isReset, notifyOnlyRead)] *)
  close : bool -> bool -> S -> S;
  (** [SetReadDeadline(t)] on the data channel [r.stream.rwc] *)
  rwc_SetReadDeadline : time -> S -> error * S
}.

(** The calls the reader makes on its collaborators, in the order made. *)
Inductive Call : Type :=
| CallReadMsg
| CallReset
| CallProcessIncomingFlag (flag : Message_Flag)
| CallWriteMsg (msg : pb_Message)
| CallStateCloseRead
| CallClose (isReset notifyOnlyRead : bool)
| CallSetReadDeadline (t : time).

Section Reader.

Context {S : Type} `{OwningStream S}.

(** One completed [state.Reader.ReadMsg(&msg)]: how long the call blocked,
    what other execution contexts did to the owning stream in the meantime,
    and what the call returned (a message, or a non-nil error). *)
Record Receive : Type := mkReceive {
  elapsed : Z;
  meanwhile : S -> S;
  outcome : pb_Message + goerror
}.

(** [webRTCStreamReaderState]: [Reader] is the Frame Source, given by the
    receives it will complete, in order; when none is left [ReadMsg] does
    not return. *)
Record webRTCStreamReaderState : Type := mkState {
  Reader : list Receive;
  Buffer : bytes
}.

(** [webRTCStreamReader]: [deadline] is [None] until set; [closeOnce] is
    the done flag of the [sync.Once]. *)
Record webRTCStreamReader : Type := mkReader {
  stream : S;
  state : webRTCStreamReaderState;
  deadline : option time;
  closeOnce : bool
}.

(** The reader together with the clock read by [time.Now()] and the calls
    made so far. *)
Record World : Type := mkWorld {
  r : webRTCStreamReader;
  now : time;
  calls : list Call
}.

Definition set_stream (s : S) (w : World) : World :=
  mkWorld (mkReader s (state (r w)) (deadline (r w)) (closeOnce (r w)))
          (now w) (calls w).

Definition set_state (st : webRTCStreamReaderState) (w : World) : World :=
  mkWorld (mkReader (stream (r w)) st (deadline (r w)) (closeOnce (r w)))
          (now w) (calls w).

Definition set_Buffer (buf : bytes) (w : World) : World :=
  set_state (mkState (Reader (state (r w))) buf) w.

Definition set_deadline (d : option time) (w : World) : World :=
  mkWorld (mkReader (stream (r w)) (state (r w)) d (closeOnce (r w)))
          (now w) (calls w).

Definition set_closeOnce (done : bool) (w : World) : World :=
  mkWorld (mkReader (stream (r w)) (state (r w)) (deadline (r w)) done)
          (now w) (calls w).

Definition call (c : Call) (w : World) : World :=
  mkWorld (r w) (now w) (calls w ++ [c]).

(** The receive [rcv] completes: it is taken off the Frame Source, the
    clock advances, and the other contexts have acted on the stream. *)
Definition received (rcv : Receive) (rest : list Receive) (w : World) : World :=
  mkWorld (mkReader (meanwhile rcv (stream (r w)))
                    (mkState rest (Buffer (state (r w))))
                    (deadline (r w)) (closeOnce (r w)))
          (now w + elapsed rcv)%Z
          (calls w ++ [CallReadMsg]).

(** [r.getReadDeadline()] *)
Definition getReadDeadline (w : World) : time * bool :=
  match deadline (r w) with
  | Some t => (t, true)
  | None => (0%Z, false)
  end.

(** [closeErr, _ := r.stream.closeErr.Get()] followed by the test
    [closeErr != nil]: the error to return when [closeErr] is nil is
    [otherwise]. *)
Definition closeErr_or (s : S) (otherwise : goerror) : goerror :=
  match fst (closeErr_Get s) with
  | Some closeErr => closeErr
  | None => otherwise
  end.

(** How a call of [Read] ends: it returns [(n, err)], having written into
    the caller's slice, or it stays blocked in [ReadMsg]. *)
Inductive Outcome : Type :=
| Returns (n : nat) (err : error) (b : bytes) (w : World)
| Blocked (w : World).

(** How one iteration of the loop of [Read] ends. *)
Inductive Step : Type :=
| Done (o : Outcome)
| Continue (b : bytes) (w : World).

(** The function passed to [r.state.Exec]: lines 63 to 115. *)
Definition Read_func1 (b : bytes) (w : World) : Step :=
  let '(b', read) := copy b (Buffer (state (r w))) in
  let w := set_Buffer (skipn read (Buffer (state (r w)))) w in
  let remaining := length (Buffer (state (r w))) in
  if (remaining =? 0) && negb (AllowRead (stream (r w))) then
    Done (Returns read (Some (closeErr_or (stream (r w)) io_EOF)) b' w)
  else if (0 <? read) || (read =? length b) then
    Done (Returns read None b' w)
  else
    match Reader (state (r w)) with
    | [] => Done (Blocked (call CallReadMsg w))
    | rcv :: rest =>
        let w := received rcv rest w in
        match outcome rcv with
        | inr readErr =>
            if errors_Is readErr io_EOF then
              let w := call CallReset (set_stream (Reset (stream (r w))) w) in
              Done (Returns read (Some io_ErrClosedPipe) b' w)
            else if errors_Is readErr os_ErrDeadlineExceeded then
              Done (Returns read (Some (closeErr_or (stream (r w)) readErr)) b' w)
            else
              Done (Returns read (Some readErr) b' w)
        | inl msg =>
            let w :=
              if AllowRead (stream (r w)) && isSome (Message msg)
              then set_Buffer (Buffer (state (r w)) ++ GetMessage msg) w
              else w in
            let w :=
              match Flag msg with
              | Some flag =>
                  call (CallProcessIncomingFlag flag)
                       (set_stream (processIncomingFlag flag (stream (r w))) w)
              | None => w
              end in
            Continue b' w
        end
    end.

(** The body of the loop of [Read]: lines 46 to 115. *)
Definition Read_iteration (b : bytes) (w : World) : Step :=
  if isClosed (stream (r w)) then
    Done (Returns 0 (Some io_ErrClosedPipe) b w)
  else
    let '(readDeadline, hasReadDeadline) := getReadDeadline w in
    if hasReadDeadline && Before readDeadline (now w) then
      Done (Returns 0 (Some os_ErrDeadlineExceeded) b w)
    else
      Read_func1 b w.

(** The number of receives the Frame Source still has to complete. *)
Definition pending (w : World) : nat := length (Reader (state (r w))).

(** [Read]: the loop runs [Read_iteration] until one ends the call; every
    iteration that continues has taken one receive off the Frame Source. *)
Equations? Read (b : bytes) (w : World) : Outcome by wf (pending w) lt :=
  Read b w with inspect (Read_iteration b w) => {
    | exist _ (Done o) _ => o
    | exist _ (Continue b' w') E => Read b' w'
  }.
Proof.
  revert E. unfold Read_iteration, pending.
  destruct (isClosed _); [discriminate|].
  destruct (getReadDeadline w) as [d has].
  destruct (has && Before d (now w)); [discriminate|].
  unfold Read_func1.
  destruct (copy b (Buffer (state (r w)))) as [b1 read].
  cbn -[Nat.eqb Nat.ltb skipn].
  destruct (_ && _); [discriminate|].
  destruct (_ || _); [discriminate|].
  destruct (Reader (state (r w))) as [|rcv rest]; [discriminate|].
  destruct (outcome rcv) as [msg|readErr].
  - intros E. injection E as _ <-.
    destruct (AllowRead _ && isSome _), (Flag msg); cbn; lia.
  - destruct (errors_Is readErr io_EOF); [discriminate|].
    destruct (errors_Is readErr os_ErrDeadlineExceeded); discriminate.
Qed.

(** [SetReadDeadline]: lines 121 to 124. *)
Definition SetReadDeadline (t : time) (w : World) : error * World :=
  let w := set_deadline (Some t) w in
  let '(err, s) := rwc_SetReadDeadline t (stream (r w)) in
  (err, call (CallSetReadDeadline t) (set_stream s w)).

(** The message [CloseRead] writes. *)
Definition stop_sending : pb_Message :=
  mkMessage (Some Message_STOP_SENDING) None.

(** The function passed to [r.closeOnce.Do]: lines 135 to 147. *)
Definition CloseRead_func1 (w : World) : error * World :=
  let '(err, s) := WriteMsg stop_sending (stream (r w)) in
  let w := call (CallWriteMsg stop_sending) (set_stream s w) in
  match err with
  | Some e =>
      (Some (fmt_Errorf_w "could not close stream for reading" e), w)
  | None =>
      let '(st, s) := stateHandler_CloseRead (stream (r w)) in
      let w := call CallStateCloseRead (set_stream s w) in
      if channelState_eqb st stateClosed then
        (None, call (CallClose false true)
                    (set_stream (close false true (stream (r w))) w))
      else
        (None, w)
  end.

(** [sync.Once.Do(f)]: [f] runs only if no call of [Do] has run it, and the
    once is done when [f] returns. *)
Definition Once_Do (f : World -> error * World) (err : error) (w : World)
  : error * World :=
  if closeOnce (r w) then (err, w)
  else let '(err, w) := f w in (err, set_closeOnce true w).

(** [CloseRead]: lines 130 to 149. *)
Definition CloseRead (w : World) : error * World :=
  if isClosed (stream (r w)) then (None, w)
  else Once_Do CloseRead_func1 None w.

(** *** Sequences of calls *)

(** The world a call of [Read] leaves behind. *)
Definition world_after (o : Outcome) : World :=
  match o with
  | Returns _ _ _ w => w
  | Blocked w => w
  end.

(** Successive calls of [Read], one per destination slice, for as long as
    they return: the results [(n, err, b)] of the calls that returned,
    whether the last one stays blocked, and the world at the end. *)
Fixpoint Reads (dests : list bytes) (w : World)
  : list (nat * error * bytes) * bool * World :=
  match dests with
  | [] => ([], false, w)
  | b :: dests =>
      match Read b w with
      | Blocked w => ([], true, w)
      | Returns n err b w =>
          let '(results, blocked, w) := Reads dests w in
          ((n, err, b) :: results, blocked, w)
      end
  end.

(** The bytes a call that returned [(n, err)] handed to its caller. *)
Definition returned (result : nat * error * bytes) : bytes :=
  let '(n, _, b) := result in firstn n b.

Definition delivered (results : list (nat * error * bytes)) : bytes :=
  concat (map returned results).

(** The payloads the Frame Source still has to deliver, concatenated. *)
Definition payload (rcv : Receive) : bytes :=
  match outcome rcv with
  | inl msg => GetMessage msg
  | inr _ => []
  end.

Definition payloads (src : list Receive) : bytes :=
  concat (map payload src).

(** Successive calls of [CloseRead]; before each, other execution contexts
    act on the owning stream. *)
Fixpoint CloseReads (others : list (S -> S)) (w : World)
  : list error * World :=
  match others with
  | [] => ([], w)
  | other :: others =>
      let '(err, w) := CloseRead (set_stream (other (stream (r w))) w) in
      let '(errs, w) := CloseReads others w in
      (err :: errs, w)
  end.

Definition is_stop_sending (c : Call) : bool :=
  match c with
  | CallWriteMsg (mkMessage (Some Message_STOP_SENDING) _) => true
  | _ => false
  end.

(** The number of stop-sending frames handed to the writer so far. *)
Definition stop_sendings (w : World) : nat :=
  length (filter is_stop_sending (calls w)).

Definition is_transition (c : Call) : bool :=
  match c with
  | CallStateCloseRead => true
  | _ => false
  end.

(** The number of local read-closed transitions applied so far. *)
Definition transitions (w : World) : nat :=
  length (filter is_transition (calls w)).

(** *** Notions used to state the properties *)

(** The deadline test at the top of an iteration: lines 50 to 53. *)
Definition deadline_elapsed (w : World) : bool :=
  let '(readDeadline, hasReadDeadline) := getReadDeadline w in
  hasReadDeadline && Before readDeadline (now w).

(** The iteration at [w] gets as far as [ReadMsg]: none of the tests on
    lines 46, 53, 68 and 78 ends the call before. *)
Definition receives (b : bytes) (w : World) : bool :=
  let read := snd (copy b (Buffer (state (r w)))) in
  let remaining := length (skipn read (Buffer (state (r w)))) in
  negb (isClosed (stream (r w))) &&
  negb (deadline_elapsed w) &&
  negb ((remaining =? 0) && negb (AllowRead (stream (r w)))) &&
  negb ((0 <? read) || (read =? length b)).

(** [w'] is the world at the top of a later iteration of the call
    [Read b] started in [w]. *)
Inductive iterates (b : bytes) : World -> World -> Prop :=
| iterates_refl w : iterates b w w
| iterates_step w w1 w2 :
    Read_iteration b w = Continue b w1 ->
    iterates b w1 w2 ->
    iterates b w w2.

(** The stream is open and local reading is permitted. *)
Definition steady (s : S) : Prop :=
  isClosed s = false /\ AllowRead s = true.

(** The deadline [d] has elapsed at time [t]. *)
Definition elapsed_at (d : option time) (t : time) : bool :=
  match d with
  | Some d => Before d t
  | None => false
  end.

(** The receive delivers a frame that carries a payload. *)
Definition payload_frame (rcv : Receive) : Prop :=
  exists msg p, outcome rcv = inl msg /\ Message msg = Some p.

(** Neither what happens during the receive nor the flag of the frame
    closes the stream or forbids local reading. *)
Definition undisturbed (rcv : Receive) : Prop :=
  forall s, steady s ->
    steady (meanwhile rcv s) /\
    forall msg flag,
      outcome rcv = inl msg -> Flag msg = Some flag ->
      steady (processIncomingFlag flag (meanwhile rcv s)).

(** The deadline [d] has not elapsed at [t], nor after any of the
    receives of [src]. *)
Fixpoint in_time (d : option time) (t : time) (src : list Receive) : Prop :=
  elapsed_at d t = false /\
  match src with
  | [] => True
  | rcv :: rest => in_time d (t + elapsed rcv)%Z rest
  end.

(** Reading is permitted now and for as long as the Frame Source delivers
    what it has: payload-bearing frames, no error, no deadline expiry. *)
Definition reading (w : World) : Prop :=
  steady (stream (r w)) /\
  Forall payload_frame (Reader (state (r w))) /\
  Forall undisturbed (Reader (state (r w))) /\
  in_time (deadline (r w)) (now w) (Reader (state (r w))).

(** Other execution contexts act on the owning stream. *)
Definition meantime (other : S -> S) (w : World) : World :=
  set_stream (other (stream (r w))) w.

(** *** Notions used to state what a call touches *)

(** The step on lines 110 to 113: the flag of [msg], if any, is handed to
    the owning stream. *)
Definition flag_processed (msg : pb_Message) (w : World) : World :=
  match Flag msg with
  | Some flag =>
      call (CallProcessIncomingFlag flag)
           (set_stream (processIncomingFlag flag (stream (r w))) w)
  | None => w
  end.

(** The step on lines 105 to 108: the payload of [msg] is kept if local
    reading is permitted and the payload is present. *)
Definition payload_kept (msg : pb_Message) (w : World) : World :=
  if AllowRead (stream (r w)) && isSome (Message msg)
  then set_Buffer (Buffer (state (r w)) ++ GetMessage msg) w
  else w.

Definition is_ReadMsg (c : Call) : bool :=
  match c with
  | CallReadMsg => true
  | _ => false
  end.

(** The calls [Read] makes: on the Frame Source, and [Reset] and
    [processIncomingFlag] on the owning stream. *)
Definition by_Read (c : Call) : bool :=
  match c with
  | CallReadMsg | CallReset | CallProcessIncomingFlag _ => true
  | _ => false
  end.

(** The calls [CloseRead] makes: on the writer, the state handler and
    [close] on the owning stream. *)
Definition by_CloseRead (c : Call) : bool :=
  match c with
  | CallWriteMsg _ | CallStateCloseRead | CallClose _ _ => true
  | _ => false
  end.

(** The time the receives of [src] take together. *)
Definition elapsed_total (src : list Receive) : Z :=
  fold_right (fun rcv t => (elapsed rcv + t)%Z) 0%Z src.

(** What may differ between [w] and a later world [w'] when only [Read]
    has run in between: receives [consumed] were taken off the front of the
    Frame Source, in order, the clock advanced by the time they took, and
    the calls [new] were made, all of them calls of [Read], with one
    [ReadMsg] per receive consumed and [unanswered] more; the deadline and
    the latch of [CloseRead] are as they were. *)
Definition Read_footprint (unanswered : nat) (w w' : World) : Prop :=
  exists consumed new,
    Reader (state (r w)) = consumed ++ Reader (state (r w')) /\
    now w' = (now w + elapsed_total consumed)%Z /\
    calls w' = calls w ++ new /\
    forallb by_Read new = true /\
    length (filter is_ReadMsg new) = length consumed + unanswered /\
    deadline (r w') = deadline (r w) /\
    closeOnce (r w') = closeOnce (r w).

(** The receive delivers a message, not an error. *)
Definition is_message (rcv : Receive) : bool :=
  match outcome rcv with
  | inl _ => true
  | inr _ => false
  end.

End Reader.

(* ===================================================================== *)
(** ** A scripted owning stream                                           *)
(* ===================================================================== *)

Module Fake.

(** Modelled from the spec: the owning stream, its state handler and its
    writer are outside the sources.  This one follows their contract: the
    state handler tracks the two directions, the completion flag closes the
    read direction, stop-sending closes the write direction, a reset closes
    the stream, and the writer fails as scripted in [writes]. *)
Record stream : Type := mkStream {
  closed : bool;
  closeErr : error * bool;
  handler : channelState;
  writes : list error;
  sent : list pb_Message
}.

Definition closeReadSide (st : channelState) : channelState :=
  match st with
  | stateOpen => stateReadClosed
  | stateWriteClosed => stateClosed
  | st => st
  end.

Definition closeWriteSide (st : channelState) : channelState :=
  match st with
  | stateOpen => stateWriteClosed
  | stateReadClosed => stateClosed
  | st => st
  end.

Definition allowRead (s : stream) : bool :=
  match handler s with
  | stateOpen | stateWriteClosed => true
  | _ => false
  end.

Definition set_handler (st : channelState) (s : stream) : stream :=
  mkStream (closed s || channelState_eqb st stateClosed) (closeErr s) st
           (writes s) (sent s).

Definition reset (s : stream) : stream :=
  mkStream true (closeErr s) stateClosed (writes s) (sent s).

Definition processFlag (flag : Message_Flag) (s : stream) : stream :=
  match flag with
  | Message_FIN => set_handler (closeReadSide (handler s)) s
  | Message_STOP_SENDING => set_handler (closeWriteSide (handler s)) s
  | Message_RESET => reset s
  end.

Definition writeMsg (msg : pb_Message) (s : stream) : error * stream :=
  match writes s with
  | Some e :: rest =>
      (Some e, mkStream (closed s) (closeErr s) (handler s) rest (sent s))
  | None :: rest =>
      (None, mkStream (closed s) (closeErr s) (handler s) rest (sent s ++ [msg]))
  | [] =>
      (None, mkStream (closed s) (closeErr s) (handler s) [] (sent s ++ [msg]))
  end.

Definition closeRead (s : stream) : channelState * stream :=
  let st := closeReadSide (handler s) in
  (st, mkStream (closed s) (closeErr s) st (writes s) (sent s)).

Definition closeStream (isReset notifyOnlyRead : bool) (s : stream) : stream :=
  mkStream true (closeErr s) (handler s) (writes s) (sent s).

#[global] Instance owning : OwningStream stream := {
  isClosed := closed;
  closeErr_Get := closeErr;
  AllowRead := allowRead;
  Reset := reset;
  processIncomingFlag := processFlag;
  WriteMsg := writeMsg;
  stateHandler_CloseRead := closeRead;
  close := closeStream;
  rwc_SetReadDeadline := fun _ s => (None, s)
}.

(** A stream just opened, with a writer that fails as scripted. *)
Definition fresh (writes : list error) : stream :=
  mkStream false (None, false) stateOpen writes [].

(** A reader on [s] whose Frame Source will complete [src], at time 0. *)
Definition reader (s : stream) (src : list Receive) (buf : bytes)
                  (d : option time) : World :=
  mkWorld (mkReader s (mkState src buf) d false) 0%Z [].

(** A receive that delivers [msg] at once, nothing else happening. *)
Definition frame (flag : option Message_Flag) (p : option bytes) : Receive :=
  mkReceive (S := stream) 0%Z (fun s => s) (inl (mkMessage flag p)).

(** A receive that fails with [e] after [dt]. *)
Definition failure (dt : Z) (e : goerror) : Receive :=
  mkReceive (S := stream) dt (fun s => s) (inr e).

Definition hello : bytes := list_byte_of_string "hello".

(** An open stream on which the remote has completed: local reading is no
    longer permitted. *)
Definition completed : stream := processFlag Message_FIN (fresh []).

(** An open stream with a stored close cause. *)
Definition closing : stream :=
  mkStream false (Some (errors_New "stream reset"), true) stateOpen [] [].

(** A caller's slice of [n] zero bytes. *)
Definition dest (n : nat) : bytes := repeat Byte.x00 n.

End Fake.

(* ===================================================================== *)
(** ** The loop of [Read]                                                 *)
(* ===================================================================== *)

Section ReadLoop.

Context {S : Type} `{OwningStream S}.
Local Abbreviation World := (@World S).
Local Abbreviation Receive := (@Receive S).

Lemma Read_func1_pending b w b' w' :
  Read_func1 b w = Continue b' w' -> pending w' < pending w.
Proof.
  unfold Read_func1, pending.
  destruct (copy b (Buffer (state (r w)))) as [b1 read].
  cbn -[Nat.eqb Nat.ltb skipn].
  destruct (_ && _); [discriminate|].
  destruct (_ || _); [discriminate|].
  destruct (Reader (state (r w))) as [|rcv rest]; [discriminate|].
  destruct (outcome rcv) as [msg|readErr].
  - intros E. injection E as _ <-.
    destruct (AllowRead _ && isSome _), (Flag msg); cbn; lia.
  - destruct (errors_Is readErr io_EOF); [discriminate|].
    destruct (errors_Is readErr os_ErrDeadlineExceeded); discriminate.
Qed.

Lemma Read_iteration_pending b w b' w' :
  Read_iteration b w = Continue b' w' -> pending w' < pending w.
Proof.
  unfold Read_iteration.
  destruct (isClosed _); [discriminate|].
  destruct (getReadDeadline w) as [d has].
  destruct (has && Before d (now w)); [discriminate|].
  apply Read_func1_pending.
Qed.

Lemma Read_loop (b : bytes) (w : World) :
  Read b w =
  match Read_iteration b w with
  | Done o => o
  | Continue b' w' => Read b' w'
  end.
Proof.
  rewrite Read_equation_1.
  destruct (inspect (Read_iteration b w)) as [st E].
  destruct st; cbn; rewrite E; reflexivity.
Qed.

Lemma Read_iterates b w w1 : iterates b w w1 -> Read b w = Read b w1.
Proof.
  induction 1 as [|w w1 w2 E _ IH]; [reflexivity|].
  rewrite Read_loop, E. exact IH.
Qed.

Lemma copy_length dst src :
  snd (copy dst src) = Nat.min (length dst) (length src).
Proof. reflexivity. Qed.

Lemma copy_nothing dst src : snd (copy dst src) = 0 -> fst (copy dst src) = dst.
Proof. unfold copy; cbn. intros ->. reflexivity. Qed.

Lemma Read_iteration_open b w :
  isClosed (stream (r w)) = false -> deadline_elapsed w = false ->
  Read_iteration b w = Read_func1 b w.
Proof.
  unfold Read_iteration, deadline_elapsed. intros -> E.
  destruct (getReadDeadline w) as [d has]. rewrite E. reflexivity.
Qed.

Lemma set_Buffer_same (w : World) : set_Buffer (Buffer (state (r w))) w = w.
Proof. destruct w as [[s [src buf] d once] t cs]. reflexivity. Qed.

(** What reaching [ReadMsg] says about the iteration: the checks at the
    top passed, nothing was buffered, reading is permitted and the caller's
    slice is not empty; nothing was copied. *)
Lemma receives_inv b w :
  receives b w = true ->
  isClosed (stream (r w)) = false /\
  deadline_elapsed w = false /\
  Buffer (state (r w)) = [] /\
  AllowRead (stream (r w)) = true /\
  0 < length b.
Proof.
  unfold receives. rewrite copy_length.
  destruct (isClosed _); [discriminate|].
  destruct (deadline_elapsed w); [discriminate|].
  destruct (AllowRead _), (Buffer (state (r w))) as [|x buf], b as [|y b];
    cbn; rewrite ?andb_false_r; try discriminate.
  intros _. repeat split; lia.
Qed.

(** The rest of the iteration once [ReadMsg] has returned: lines 86 to 114,
    in the world [w] in which the receive has completed. *)
Lemma Read_iteration_receive b w rcv rest :
  receives b w = true ->
  Reader (state (r w)) = rcv :: rest ->
  Read_iteration b w =
  let w := received rcv rest w in
  match outcome rcv with
  | inr readErr =>
      if errors_Is readErr io_EOF then
        Done (Returns 0 (Some io_ErrClosedPipe) b
                (call CallReset (set_stream (Reset (stream (r w))) w)))
      else if errors_Is readErr os_ErrDeadlineExceeded then
        Done (Returns 0 (Some (closeErr_or (stream (r w)) readErr)) b w)
      else
        Done (Returns 0 (Some readErr) b w)
  | inl msg =>
      let w :=
        if AllowRead (stream (r w)) && isSome (Message msg)
        then set_Buffer (Buffer (state (r w)) ++ GetMessage msg) w
        else w in
      let w :=
        match Flag msg with
        | Some flag =>
            call (CallProcessIncomingFlag flag)
                 (set_stream (processIncomingFlag flag (stream (r w))) w)
        | None => w
        end in
      Continue b w
  end.
Proof.
  intros Hrecv Hsrc.
  destruct (receives_inv _ _ Hrecv) as (Hopen & Hdl & Hbuf & Hallow & Hlen).
  rewrite (Read_iteration_open _ _ Hopen Hdl).
  destruct w as [[s [src buf] d once] t cs]; cbn in *. subst src buf.
  destruct b as [|y b]; [cbn in Hlen; lia|].
  unfold Read_func1; cbn. rewrite Hallow; cbn. reflexivity.
Qed.

(** When the Frame Source has nothing left the call stays blocked. *)
Lemma Read_iteration_blocks b w :
  receives b w = true ->
  Reader (state (r w)) = [] ->
  Read_iteration b w = Done (Blocked (call CallReadMsg w)).
Proof.
  intros Hrecv Hsrc.
  destruct (receives_inv _ _ Hrecv) as (Hopen & Hdl & Hbuf & Hallow & Hlen).
  rewrite (Read_iteration_open _ _ Hopen Hdl).
  destruct w as [[s [src buf] d once] t cs]; cbn in *. subst src buf.
  destruct b as [|y b]; [cbn in Hlen; lia|].
  unfold Read_func1; cbn. rewrite Hallow; cbn. reflexivity.
Qed.

(** The two ways an iteration ends after the copy without calling
    [ReadMsg]: lines 68 to 81. *)
Lemma Read_func1_end_of_stream b w :
  let read := snd (copy b (Buffer (state (r w)))) in
  let rest := skipn read (Buffer (state (r w))) in
  (length rest =? 0) && negb (AllowRead (stream (r w))) = true ->
  Read_func1 b w =
  Done (Returns read (Some (closeErr_or (stream (r w)) io_EOF))
          (fst (copy b (Buffer (state (r w))))) (set_Buffer rest w)).
Proof.
  unfold Read_func1, copy. cbn -[Nat.min Nat.eqb Nat.ltb skipn firstn].
  intros ->. reflexivity.
Qed.

Lemma Read_func1_finished b w :
  let read := snd (copy b (Buffer (state (r w)))) in
  let rest := skipn read (Buffer (state (r w))) in
  (length rest =? 0) && negb (AllowRead (stream (r w))) = false ->
  (0 <? read) || (read =? length b) = true ->
  Read_func1 b w =
  Done (Returns read None (fst (copy b (Buffer (state (r w)))))
          (set_Buffer rest w)).
Proof.
  unfold Read_func1, copy. cbn -[Nat.min Nat.eqb Nat.ltb skipn firstn].
  intros -> ->. reflexivity.
Qed.

(** An iteration that continues has copied nothing: the caller's slice is
    as it was. *)
Lemma Read_iteration_Continue b w b' w' :
  Read_iteration b w = Continue b' w' -> b' = b.
Proof.
  unfold Read_iteration.
  destruct (isClosed _); [discriminate|].
  destruct (getReadDeadline w) as [d has].
  destruct (has && Before d (now w)); [discriminate|].
  unfold Read_func1.
  destruct (copy b (Buffer (state (r w)))) as [b1 read] eqn:Ecopy.
  cbn -[Nat.eqb Nat.ltb skipn].
  destruct (_ && _); [discriminate|].
  destruct (0 <? read) eqn:Eread; [discriminate|]. cbn [orb].
  destruct (read =? length b); [discriminate|].
  apply Nat.ltb_ge in Eread.
  assert (read = 0) as -> by lia.
  pose proof (copy_nothing b (Buffer (state (r w)))) as Hb.
  rewrite Ecopy in Hb. cbn in Hb. rewrite Hb by reflexivity.
  destruct (Reader (state (r w))) as [|rcv rest]; [discriminate|].
  destruct (outcome rcv) as [msg|readErr].
  - intros E. injection E as -> _. reflexivity.
  - destruct (errors_Is readErr io_EOF); [discriminate|].
    destruct (errors_Is readErr os_ErrDeadlineExceeded); discriminate.
Qed.

(** Induction over the iterations of a call. *)
Lemma Read_induction (P : bytes -> World -> Outcome -> Prop) :
  (forall b w o, Read_iteration b w = Done o -> P b w o) ->
  (forall b w w',
     Read_iteration b w = Continue b w' ->
     P b w' (Read b w') -> P b w (Read b w')) ->
  forall b w, P b w (Read b w).
Proof.
  intros Hdone Hcont b w.
  remember (pending w) as k eqn:Hk. revert w Hk.
  induction k as [k IH] using lt_wf_ind. intros w ->.
  rewrite Read_loop. destruct (Read_iteration b w) as [o|b' w'] eqn:E.
  - apply Hdone, E.
  - pose proof (Read_iteration_Continue _ _ E) as ->.
    apply Hcont; [exact E|].
    eapply IH; [|reflexivity]. eapply Read_iteration_pending, E.
Qed.

(** What an iteration that ends the call returns: nothing at the top of
    the loop and after a receive, the bytes copied otherwise; with bytes,
    an error can only be the end of the stream. *)
Lemma Read_iteration_Returns b w n err b' w' :
  Read_iteration b w = Done (Returns n err b' w') ->
  n <= length b /\
  (0 < n -> forall e, err = Some e ->
     Buffer (state (r w')) = [] /\
     AllowRead (stream (r w')) = false /\
     e = closeErr_or (stream (r w')) io_EOF).
Proof.
  unfold Read_iteration.
  destruct (isClosed _).
  { intros E. injection E as <- _ _ _. split; lia. }
  destruct (getReadDeadline w) as [d has].
  destruct (has && Before d (now w)).
  { intros E. injection E as <- _ _ _. split; lia. }
  unfold Read_func1, copy.
  cbn -[Nat.min Nat.eqb Nat.ltb skipn firstn].
  set (read := Nat.min (length b) (length (Buffer (state (r w))))).
  assert (read <= length b) by (subst read; lia).
  destruct (length (skipn read _) =? 0) eqn:Erest; cbn [andb].
  - destruct (AllowRead (stream (r w))) eqn:Eallow; cbn [negb].
    + destruct ((0 <? read) || (read =? length b)) eqn:Efin.
      * intros E. injection E as <- <- _ _. split; [lia|]. discriminate.
      * apply orb_false_iff in Efin. destruct Efin as [E0 _].
        apply Nat.ltb_ge in E0.
        destruct (Reader (state (r w))) as [|rcv rest]; [discriminate|].
        destruct (outcome rcv) as [msg|readErr]; [discriminate|].
        destruct (errors_Is readErr io_EOF);
          [|destruct (errors_Is readErr os_ErrDeadlineExceeded)];
          intros E; injection E as <- _ _ _; split; lia.
    + intros E. injection E as <- <- _ <-. split; [lia|].
      intros _ e [= <-]. cbn. apply Nat.eqb_eq, length_zero_iff_nil in Erest.
      auto.
  - destruct ((0 <? read) || (read =? length b)) eqn:Efin.
    + intros E. injection E as <- <- _ _. split; [lia|]. discriminate.
    + apply orb_false_iff in Efin. destruct Efin as [E0 _].
      apply Nat.ltb_ge in E0.
      destruct (Reader (state (r w))) as [|rcv rest]; [discriminate|].
      destruct (outcome rcv) as [msg|readErr]; [discriminate|].
      destruct (errors_Is readErr io_EOF);
        [|destruct (errors_Is readErr os_ErrDeadlineExceeded)];
        intros E; injection E as <- _ _ _; split; lia.
Qed.

Lemma Read_Returns b w :
  forall n err b' w',
  Read b w = Returns n err b' w' ->
  n <= length b /\
  (0 < n -> forall e, err = Some e ->
     Buffer (state (r w')) = [] /\
     AllowRead (stream (r w')) = false /\
     e = closeErr_or (stream (r w')) io_EOF).
Proof.
  revert b w.
  apply (Read_induction
    (fun b w o => forall n err b' w',
       o = Returns n err b' w' ->
       n <= length b /\
       (0 < n -> forall e, err = Some e ->
          Buffer (state (r w')) = [] /\
          AllowRead (stream (r w')) = false /\
          e = closeErr_or (stream (r w')) io_EOF))).
  - intros b w o E n err b' w' ->. eapply Read_iteration_Returns, E.
  - intros b w w1 _ IH. exact IH.
Qed.

(** On a stream that is fully closed [Read] fails at once, whatever is
    buffered. *)
Lemma Read_closed b w w1 :
  iterates b w w1 ->
  isClosed (stream (r w1)) = true ->
  Read b w = Returns 0 (Some io_ErrClosedPipe) b w1.
Proof.
  intros Hit Hclosed. rewrite (Read_iterates Hit), Read_loop.
  unfold Read_iteration. rewrite Hclosed. reflexivity.
Qed.

(** An elapsed deadline ends the call at the top of the iteration, whatever
    the stream's close cause is. *)
Lemma Read_deadline_elapsed b w w1 :
  iterates b w w1 ->
  isClosed (stream (r w1)) = false ->
  deadline_elapsed w1 = true ->
  Read b w = Returns 0 (Some os_ErrDeadlineExceeded) b w1.
Proof.
  intros Hit Hopen Hdl. rewrite (Read_iterates Hit), Read_loop.
  unfold Read_iteration, deadline_elapsed in *. rewrite Hopen.
  destruct (getReadDeadline w1) as [d has]. rewrite Hdl. reflexivity.
Qed.

(** C5: when the receive of the Frame Source reports the end of the
    transmission ([io.EOF], the transport closed without a completion
    signal), [Read] resets the whole stream and returns zero bytes and
    [io.ErrClosedPipe]. *)
Theorem Read_transport_end b w w1 rcv rest readErr :
  iterates b w w1 ->
  receives b w1 = true ->
  Reader (state (r w1)) = rcv :: rest ->
  outcome rcv = inr readErr ->
  errors_Is readErr io_EOF = true ->
  let w2 := received rcv rest w1 in
  Read b w =
  Returns 0 (Some io_ErrClosedPipe) b
    (call CallReset (set_stream (Reset (stream (r w2))) w2)).
Proof.
  intros Hit Hrecv Hsrc Hout Heof.
  rewrite (Read_iterates Hit), Read_loop,
    (Read_iteration_receive _ _ Hrecv Hsrc).
  cbn zeta. rewrite Hout, Heof. reflexivity.
Qed.

(** C6: when the receive of the Frame Source fails with its deadline error,
    [Read] returns the stored close cause if there is one and that deadline
    error otherwise; any other receive error, the end of the transmission
    apart, is returned unchanged.  In both cases no byte is returned. *)
Theorem Read_receive_error b w w1 rcv rest readErr :
  iterates b w w1 ->
  receives b w1 = true ->
  Reader (state (r w1)) = rcv :: rest ->
  outcome rcv = inr readErr ->
  errors_Is readErr io_EOF = false ->
  let w2 := received rcv rest w1 in
  (errors_Is readErr os_ErrDeadlineExceeded = true ->
   (forall closeErr,
      fst (closeErr_Get (stream (r w2))) = Some closeErr ->
      Read b w = Returns 0 (Some closeErr) b w2) /\
   (fst (closeErr_Get (stream (r w2))) = None ->
      Read b w = Returns 0 (Some readErr) b w2)) /\
  (errors_Is readErr os_ErrDeadlineExceeded = false ->
   Read b w = Returns 0 (Some readErr) b w2).
Proof.
  intros Hit Hrecv Hsrc Hout Heof w2.
  rewrite (Read_iterates Hit), Read_loop,
    (Read_iteration_receive _ _ Hrecv Hsrc).
  cbn zeta. fold w2. rewrite Hout, Heof.
  split; intros ->; [split|reflexivity].
  - intros closeErr E. unfold closeErr_or. rewrite E. reflexivity.
  - intros E. unfold closeErr_or. rewrite E. reflexivity.
Qed.

(** C7: when [Read] has received a frame, the frame's payload is appended
    to the buffer if and only if local reading is still permitted and the
    payload is present, and is discarded otherwise; in either case a flag
    carried by the frame is handed to [processIncomingFlag] of the owning
    stream, and the loop goes on. *)
Theorem Read_frame_received b w w1 rcv rest msg :
  iterates b w w1 ->
  receives b w1 = true ->
  Reader (state (r w1)) = rcv :: rest ->
  outcome rcv = inl msg ->
  let w2 := received rcv rest w1 in
  exists w3,
    Read_iteration b w1 = Continue b w3 /\
    iterates b w w3 /\
    Buffer (state (r w3)) =
      (if AllowRead (stream (r w2)) && isSome (Message msg)
       then Buffer (state (r w1)) ++ GetMessage msg
       else Buffer (state (r w1))) /\
    stream (r w3) =
      match Flag msg with
      | Some flag => processIncomingFlag flag (stream (r w2))
      | None => stream (r w2)
      end /\
    calls w3 =
      calls w1 ++ CallReadMsg ::
      match Flag msg with
      | Some flag => [CallProcessIncomingFlag flag]
      | None => []
      end.
Proof.
  intros Hit Hrecv Hsrc Hout w2.
  pose proof (Read_iteration_receive _ _ Hrecv Hsrc) as E.
  cbn zeta in E. fold w2 in E. rewrite Hout in E.
  eexists. split; [exact E|]. split.
  - clear - Hit E. induction Hit as [w|w wa wb Ea _ IH].
    + eapply iterates_step; [exact E|apply iterates_refl].
    + eapply iterates_step; [exact Ea|]. apply IH, E.
  - subst w2. destruct w1 as [[s [src buf] d once] t cs]; cbn in *.
    destruct (AllowRead (meanwhile rcv s) && isSome (Message msg)),
      (Flag msg); cbn; rewrite <- ?app_assoc; auto.
Qed.

(** C3 (amended): a call of [Read] never returns more bytes than the
    caller's slice holds; and in an iteration that copied at least one byte,
    or whose slice is empty, the call ends at once, without a receive on
    the Frame Source, returning the copied count: with no error, unless the
    buffer is now empty and local reading is no longer permitted, in which
    case with the close cause or [io.EOF]. *)
Theorem Read_partial b w w1 :
  (forall n err b' w', Read b w = Returns n err b' w' -> n <= length b) /\
  (iterates b w w1 ->
   isClosed (stream (r w1)) = false ->
   deadline_elapsed w1 = false ->
   let read := snd (copy b (Buffer (state (r w1)))) in
   let rest := skipn read (Buffer (state (r w1))) in
   0 < read \/ length b = 0 ->
   Read b w =
   Returns read
     (if (length rest =? 0) && negb (AllowRead (stream (r w1)))
      then Some (closeErr_or (stream (r w1)) io_EOF)
      else None)
     (fst (copy b (Buffer (state (r w1)))))
     (set_Buffer rest w1) /\
   calls (set_Buffer rest w1) = calls w1 /\
   Reader (state (r (set_Buffer rest w1))) = Reader (state (r w1))).
Proof.
  split.
  - intros n err b' w' E. eapply Read_Returns, E.
  - intros Hit Hopen Hdl read rest Hread.
    split; [|split; reflexivity].
    rewrite (Read_iterates Hit), Read_loop,
      (Read_iteration_open _ _ Hopen Hdl).
    assert ((0 <? read) || (read =? length b) = true) as Hfin.
    { apply orb_true_iff. destruct Hread as [Hpos|Hlen].
      - left. apply Nat.ltb_lt, Hpos.
      - right. apply Nat.eqb_eq. subst read. rewrite copy_length. lia. }
    destruct ((length rest =? 0) && negb (AllowRead (stream (r w1))))
      eqn:Eeof.
    + rewrite (Read_func1_end_of_stream _ _ Eeof). reflexivity.
    + rewrite (Read_func1_finished _ _ Eeof Hfin). reflexivity.
Qed.

(** C4 (amended): in an iteration after whose copy the buffer is empty while
    local reading is no longer permitted, [Read] returns the number of
    bytes just copied (zero when nothing was buffered) with the stored
    close cause if there is one and [io.EOF] otherwise; and every further
    call in that state, the stream not fully closed and no deadline
    elapsed, returns zero bytes and the same error. *)
Theorem Read_end_of_stream b w w1 :
  iterates b w w1 ->
  isClosed (stream (r w1)) = false ->
  deadline_elapsed w1 = false ->
  let read := snd (copy b (Buffer (state (r w1)))) in
  skipn read (Buffer (state (r w1))) = [] ->
  AllowRead (stream (r w1)) = false ->
  let err := Some (closeErr_or (stream (r w1)) io_EOF) in
  Read b w =
    Returns read err (fst (copy b (Buffer (state (r w1)))))
      (set_Buffer [] w1) /\
  (forall b2 w2,
     stream (r w2) = stream (r w1) ->
     Buffer (state (r w2)) = [] ->
     deadline_elapsed w2 = false ->
     Read b2 w2 = Returns 0 err b2 w2).
Proof.
  intros Hit Hopen Hdl read Hrest Hallow err. split.
  - rewrite (Read_iterates Hit), Read_loop,
      (Read_iteration_open _ _ Hopen Hdl), Read_func1_end_of_stream.
    + fold read. rewrite Hrest. reflexivity.
    + fold read. rewrite Hrest, Hallow. reflexivity.
  - intros b2 w2 Hs Hbuf Hdl2.
    rewrite Read_loop, Read_iteration_open, Read_func1_end_of_stream;
      rewrite ?Hs, ?Hbuf; auto.
    + cbn. rewrite Nat.min_0_r. cbn. rewrite <- Hbuf at 1.
      rewrite set_Buffer_same. reflexivity.
    + cbn. rewrite Nat.min_0_r. cbn. rewrite Hallow. reflexivity.
Qed.

(** C10 (amended): when [Read] returns a non-nil error the returned count
    is zero, except when the error is the end of the stream (the close
    cause or [io.EOF]) found after the copy emptied the buffer while local
    reading is no longer permitted: the count is then the number of bytes
    copied. *)
Theorem Read_error_count b w n e b' w' :
  0 < length b ->
  Read b w = Returns n (Some e) b' w' ->
  n = 0 \/
  (n <= length b /\
   Buffer (state (r w')) = [] /\
   AllowRead (stream (r w')) = false /\
   e = closeErr_or (stream (r w')) io_EOF).
Proof.
  intros _ E. destruct (Read_Returns _ _ E) as [Hn Herr].
  destruct n as [|n]; [left; reflexivity|right].
  split; [exact Hn|]. apply Herr; [lia|reflexivity].
Qed.

(** *** Ordered delivery *)

Lemma deadline_elapsed_at (w : World) :
  deadline_elapsed w = elapsed_at (deadline (r w)) (now w).
Proof.
  unfold deadline_elapsed, getReadDeadline, elapsed_at.
  destruct (deadline (r w)); reflexivity.
Qed.

Lemma reading_open w :
  reading w ->
  isClosed (stream (r w)) = false /\
  AllowRead (stream (r w)) = true /\
  deadline_elapsed w = false.
Proof.
  intros ([Hopen Hallow] & _ & _ & Htime).
  rewrite deadline_elapsed_at.
  destruct (Reader (state (r w))); cbn in Htime; tauto.
Qed.

Lemma in_time_now d t (src : list Receive) : in_time d t src -> elapsed_at d t = false.
Proof. destruct src; cbn; tauto. Qed.

Lemma reading_set_Buffer buf w : reading w -> reading (set_Buffer buf w).
Proof. unfold reading. cbn. tauto. Qed.

Lemma copy_fst_length dst src : length (fst (copy dst src)) = length dst.
Proof.
  unfold copy; cbn -[Nat.min].
  rewrite length_app, length_firstn, length_skipn. lia.
Qed.

Lemma firstn_copy b buf :
  firstn (snd (copy b buf)) (fst (copy b buf)) = firstn (snd (copy b buf)) buf.
Proof.
  unfold copy; cbn -[Nat.min].
  set (n := Nat.min (length b) (length buf)).
  rewrite firstn_app, firstn_firstn, Nat.min_id, length_firstn.
  replace (n - Nat.min n (length buf)) with 0 by (subst n; lia).
  cbn. apply app_nil_r.
Qed.

(** An iteration that receives a payload frame while reading is permitted
    keeps every byte, in order. *)
Lemma Read_iteration_reading b w w' :
  reading w ->
  Read_iteration b w = Continue b w' ->
  reading w' /\
  Buffer (state (r w')) ++ payloads (Reader (state (r w'))) =
  Buffer (state (r w)) ++ payloads (Reader (state (r w))).
Proof.
  intros Hr E.
  destruct (reading_open Hr) as (Hopen & Hallow & Hdl).
  destruct (receives b w) eqn:Hrecv.
  2:{ rewrite (Read_iteration_open _ _ Hopen Hdl) in E.
      unfold receives in Hrecv. rewrite Hopen, Hdl, Hallow in Hrecv.
      cbn [negb andb] in Hrecv. rewrite andb_false_r in Hrecv.
      cbn [negb andb] in Hrecv. apply negb_false_iff in Hrecv.
      rewrite Read_func1_finished in E; [discriminate| |exact Hrecv].
      rewrite Hallow. apply andb_false_r. }
  destruct (receives_inv _ _ Hrecv) as (_ & _ & Hbuf & _ & _).
  destruct (Reader (state (r w))) as [|rcv rest] eqn:Hsrc.
  { rewrite (Read_iteration_blocks _ _ Hrecv Hsrc) in E. discriminate. }
  rewrite (Read_iteration_receive _ _ Hrecv Hsrc) in E. cbn zeta in E.
  destruct Hr as (Hsteady & Hframes & Hundis & Htime).
  rewrite Hsrc in Hframes, Hundis, Htime.
  inversion Hframes as [|? ? (msg & p & Hout & Hmsg) Hframes']; subst.
  inversion Hundis as [|? ? Hund Hundis']; subst.
  destruct (Hund _ Hsteady) as [Hmean Hflag].
  destruct Htime as [_ Htime].
  rewrite Hout in E. cbn [received stream r] in E.
  destruct Hmean as [Hmopen Hmallow]. rewrite Hmallow, Hmsg in E.
  cbn [isSome andb] in E.
  assert (payload rcv = p) as Hp.
  { unfold payload, GetMessage. rewrite Hout, Hmsg. reflexivity. }
  unfold GetMessage in E. rewrite Hmsg in E.
  unfold payloads. cbn [map concat]. rewrite Hp.
  destruct (Flag msg) as [flag|] eqn:Eflag; injection E as <-;
    cbn; rewrite Hbuf; cbn.
  - split; [|reflexivity].
    repeat split; try assumption; apply (Hflag msg flag Hout Eflag).
  - split; [|reflexivity].
    repeat split; assumption.
Qed.

(** A call of [Read] while reading is permitted: it returns no error, at
    least one byte when the slice is not empty, and the bytes returned
    followed by those still buffered and those still to be received are
    the bytes buffered and to be received before the call; it stays blocked
    only when there is nothing left. *)
Lemma Read_reading b w :
  reading w ->
  match Read b w with
  | Returns n err b' w' =>
      err = None /\ reading w' /\ (0 < length b -> 0 < n) /\
      length b' = length b /\
      firstn n b' ++ Buffer (state (r w')) ++ payloads (Reader (state (r w')))
      = Buffer (state (r w)) ++ payloads (Reader (state (r w)))
  | Blocked w' =>
      Buffer (state (r w')) = [] /\ Reader (state (r w')) = [] /\
      Buffer (state (r w)) ++ payloads (Reader (state (r w))) = []
  end.
Proof.
  revert b w.
  apply (Read_induction (fun b w o =>
    reading w ->
    match o with
    | Returns n err b' w' =>
        err = None /\ reading w' /\ (0 < length b -> 0 < n) /\
        length b' = length b /\
        firstn n b' ++ Buffer (state (r w')) ++
          payloads (Reader (state (r w')))
        = Buffer (state (r w)) ++ payloads (Reader (state (r w)))
    | Blocked w' =>
        Buffer (state (r w')) = [] /\ Reader (state (r w')) = [] /\
        Buffer (state (r w)) ++ payloads (Reader (state (r w))) = []
    end)).
  - intros b w o E Hr.
    destruct (reading_open Hr) as (Hopen & Hallow & Hdl).
    destruct (receives b w) eqn:Hrecv.
    + destruct (receives_inv _ _ Hrecv) as (_ & _ & Hbuf & _ & _).
      destruct (Reader (state (r w))) as [|rcv rest] eqn:Hsrc.
      * rewrite (Read_iteration_blocks _ _ Hrecv Hsrc) in E.
        injection E as <-. cbn. rewrite Hbuf, Hsrc. auto.
      * exfalso.
        rewrite (Read_iteration_receive _ _ Hrecv Hsrc) in E. cbn zeta in E.
        destruct Hr as (_ & Hframes & _). rewrite Hsrc in Hframes.
        inversion Hframes as [|? ? (msg & p & Hout & _) _]; subst.
        rewrite Hout in E. discriminate.
    + rewrite (Read_iteration_open _ _ Hopen Hdl) in E.
      unfold receives in Hrecv. rewrite Hopen, Hdl, Hallow in Hrecv.
      cbn [negb andb] in Hrecv. rewrite andb_false_r in Hrecv.
      cbn [negb andb] in Hrecv. apply negb_false_iff in Hrecv.
      rewrite Read_func1_finished in E;
        [| rewrite Hallow; apply andb_false_r | exact Hrecv].
      injection E as <-.
      split; [reflexivity|]. split; [apply reading_set_Buffer, Hr|].
      split; [|split].
      2: exact (copy_fst_length b (Buffer (state (r w)))).
      * intros Hlen. apply orb_true_iff in Hrecv.
        destruct Hrecv as [Hpos|Heq]; [apply Nat.ltb_lt, Hpos|].
        apply Nat.eqb_eq in Heq. rewrite copy_length in Heq. lia.
      * pose proof (firstn_copy b (Buffer (state (r w)))) as Hcopy.
        unfold copy in Hcopy. cbn [fst snd] in Hcopy. rewrite Hcopy.
        cbn. rewrite app_assoc, firstn_skipn. reflexivity.
  - intros b w w' E IH Hr.
    destruct (Read_iteration_reading Hr E) as [Hr' Hkeep].
    specialize (IH Hr'). destruct (Read b w') as [n err b' w''|w''].
    + rewrite <- Hkeep. exact IH.
    + rewrite <- Hkeep. exact IH.
Qed.

Lemma Reads_reading dests : forall w,
  reading w ->
  let '(results, blocked, w') := Reads dests w in
  Forall (fun result => snd (fst result) = None) results /\
  delivered results ++ Buffer (state (r w')) ++
    payloads (Reader (state (r w')))
  = Buffer (state (r w)) ++ payloads (Reader (state (r w))) /\
  (blocked = true ->
   Buffer (state (r w')) = [] /\ Reader (state (r w')) = []) /\
  (blocked = false ->
   Forall (fun b => 0 < length b) dests ->
   length dests <= length (delivered results)).
Proof.
  induction dests as [|b dests IH]; intros w Hr; cbn [Reads].
  - repeat split; auto; discriminate.
  - pose proof (Read_reading b Hr) as Hread.
    destruct (Read b w) as [n err b' w1|w1] eqn:ERead.
    + destruct (Read_Returns _ _ ERead) as [Hn _].
      destruct Hread as (-> & Hr1 & Hpos & Hsame & Hkeep).
      specialize (IH w1 Hr1).
      destruct (Reads dests w1) as [[results blocked] w2].
      destruct IH as (Herrs & Hkeep2 & Hblocked & Hcount).
      split; [constructor; [reflexivity|exact Herrs]|].
      unfold delivered in *. cbn [map concat returned].
      split; [|split].
      * rewrite <- Hkeep, <- Hkeep2, <- app_assoc. reflexivity.
      * exact Hblocked.
      * intros Hb Hdests. apply Forall_cons_iff in Hdests as [Hlen Hdests'].
        specialize (Hcount Hb Hdests'). specialize (Hpos Hlen).
        rewrite length_app, length_firstn. cbn [length]. lia.
    + destruct Hread as (Hbuf & Hsrc & Hnone).
      cbn. rewrite Hbuf, Hsrc, Hnone.
      repeat split; auto; discriminate.
Qed.

(** C2: while reading is permitted (the stream not closed, no deadline
    expiry, no Frame Source error) and the Frame Source delivers
    payload-bearing frames P1, ..., Pn in this order, then whatever slices
    the caller passes to its successive calls of [Read], no call returns an
    error, the bytes returned are in order a prefix of what was buffered
    followed by P1 ++ ... ++ Pn, the rest being still buffered or still to be
    received; and they are all of it once a call finds nothing left, which
    happens as soon as the caller has made more calls with a non-empty
    slice than there are bytes. *)
Theorem Reads_in_order dests w :
  reading w ->
  let '(results, blocked, w') := Reads dests w in
  let all := Buffer (state (r w)) ++ payloads (Reader (state (r w))) in
  Forall (fun result => snd (fst result) = None) results /\
  delivered results ++ Buffer (state (r w')) ++
    payloads (Reader (state (r w'))) = all /\
  (blocked = true -> delivered results = all) /\
  (Forall (fun b => 0 < length b) dests ->
   length all < length dests ->
   delivered results = all).
Proof.
  intros Hr. pose proof (Reads_reading dests Hr) as Hall.
  destruct (Reads dests w) as [[results blocked] w'].
  destruct Hall as (Herrs & Hkeep & Hblocked & Hcount).
  assert (blocked = true ->
          delivered results =
          Buffer (state (r w)) ++ payloads (Reader (state (r w)))) as Hend.
  { intros Hb. destruct (Hblocked Hb) as [Hbuf Hsrc].
    rewrite Hbuf, Hsrc in Hkeep. cbn in Hkeep.
    rewrite app_nil_r in Hkeep. exact Hkeep. }
  repeat split; try assumption.
  intros Hdests Hlen. destruct blocked; [apply Hend; reflexivity|].
  exfalso. specialize (Hcount eq_refl Hdests).
  apply (f_equal (@length _)) in Hkeep. rewrite !length_app in Hkeep.
  rewrite length_app in Hlen. lia.
Qed.

End ReadLoop.


(* ===================================================================== *)
(** ** The latch of [CloseRead]                                           *)
(* ===================================================================== *)

Section CloseReadLatch.

Context {S : Type} `{OwningStream S}.
Local Abbreviation World := (@World S).

Lemma CloseRead_closed (w : World) :
  isClosed (stream (r w)) = true -> CloseRead w = (None, w).
Proof. unfold CloseRead. intros ->. reflexivity. Qed.

Lemma CloseRead_done (w : World) :
  closeOnce (r w) = true -> CloseRead w = (None, w).
Proof.
  unfold CloseRead, Once_Do. intros ->.
  destruct (isClosed _); reflexivity.
Qed.

Lemma CloseRead_fires (w : World) :
  isClosed (stream (r w)) = false -> closeOnce (r w) = false ->
  CloseRead w =
  (fst (CloseRead_func1 w), set_closeOnce true (snd (CloseRead_func1 w))).
Proof.
  unfold CloseRead, Once_Do. intros -> ->.
  destruct (CloseRead_func1 w). reflexivity.
Qed.

Lemma stop_sendings_app (w : World) (c : Call) :
  stop_sendings (call c w) =
  stop_sendings w + (if is_stop_sending c then 1 else 0).
Proof.
  unfold stop_sendings, call. cbn [calls].
  rewrite filter_app, length_app. cbn. destruct (is_stop_sending c); cbn; lia.
Qed.

(** The function run under the latch hands exactly one stop-sending frame
    to the writer. *)
Lemma CloseRead_func1_sends (w : World) :
  stop_sendings (snd (CloseRead_func1 w)) = stop_sendings w + 1.
Proof.
  unfold CloseRead_func1.
  destruct (WriteMsg stop_sending (stream (r w))) as [[e|] s1]; cbn [snd].
  - rewrite stop_sendings_app. reflexivity.
  - cbn [stream r set_stream call].
    destruct (stateHandler_CloseRead s1) as [st s2].
    destruct (channelState_eqb st stateClosed); cbn [snd];
      unfold stop_sendings; cbn [calls call set_stream];
      rewrite !filter_app, !length_app; cbn; lia.
Qed.

Lemma CloseRead_latched (w : World) :
  closeOnce (r (snd (CloseRead w))) = true \/
  snd (CloseRead w) = w.
Proof.
  destruct (isClosed (stream (r w))) eqn:Hclosed.
  - right. rewrite CloseRead_closed by assumption. reflexivity.
  - destruct (closeOnce (r w)) eqn:Honce.
    + right. rewrite CloseRead_done by assumption. reflexivity.
    + left. rewrite CloseRead_fires by assumption. reflexivity.
Qed.

Lemma CloseRead_stop_sendings (w : World) :
  stop_sendings (snd (CloseRead w)) <=
  stop_sendings w + (if closeOnce (r w) then 0 else 1) /\
  (closeOnce (r w) = true -> closeOnce (r (snd (CloseRead w))) = true).
Proof.
  destruct (closeOnce (r w)) eqn:Honce.
  - rewrite CloseRead_done by assumption. cbn. split; [lia|auto].
  - split; [|discriminate].
    destruct (isClosed (stream (r w))) eqn:Hclosed.
    + rewrite CloseRead_closed by assumption. cbn. lia.
    + rewrite CloseRead_fires by assumption. cbn [snd].
      change (stop_sendings (set_closeOnce true (snd (CloseRead_func1 w))))
        with (stop_sendings (snd (CloseRead_func1 w))).
      rewrite CloseRead_func1_sends. lia.
Qed.

Lemma CloseReads_stop_sendings others : forall w : World,
  stop_sendings (snd (CloseReads others w)) <=
  stop_sendings w + (if closeOnce (r w) then 0 else 1).
Proof.
  induction others as [|other others IH]; intros w; cbn [CloseReads].
  - cbn. lia.
  - fold (meantime other w).
    pose proof (CloseRead_stop_sendings (meantime other w)) as [Hle Hkeep].
    pose proof (CloseRead_latched (meantime other w)) as Hlatch.
    destruct (CloseRead (meantime other w)) as [err w1]. cbn [snd] in *.
    specialize (IH w1). destruct (CloseReads others w1) as [errs w2].
    cbn [snd] in *.
    change (stop_sendings (meantime other w)) with (stop_sendings w) in Hle.
    change (closeOnce (r (meantime other w))) with (closeOnce (r w)) in *.
    destruct (closeOnce (r w)) eqn:Honce.
    + rewrite (Hkeep eq_refl) in IH. lia.
    + destruct Hlatch as [Hdone| ->].
      * rewrite Hdone in IH. lia.
      * change (closeOnce (r (meantime other w))) with (closeOnce (r w)) in IH.
        change (stop_sendings (meantime other w)) with (stop_sendings w) in IH.
        rewrite Honce in IH. lia.
Qed.

(** C8: across any number of calls of [CloseRead] on a reader, whatever
    else happens to the stream between them, at most one stop-sending frame
    is transmitted; after a first call that sent it successfully, a second
    call returns success without sending again; and a call made when the
    stream is already fully closed returns success at once and leaves the
    latch as it was. *)
Theorem CloseRead_once :
  (forall others (w : World),
     stop_sendings (snd (CloseReads others w)) <=
     stop_sendings w + (if closeOnce (r w) then 0 else 1)) /\
  (forall w : World,
     isClosed (stream (r w)) = false ->
     closeOnce (r w) = false ->
     fst (WriteMsg stop_sending (stream (r w))) = None ->
     fst (CloseRead w) = None /\
     stop_sendings (snd (CloseRead w)) = stop_sendings w + 1 /\
     forall other,
       CloseRead (meantime other (snd (CloseRead w))) =
       (None, meantime other (snd (CloseRead w)))) /\
  (forall w : World,
     isClosed (stream (r w)) = true -> CloseRead w = (None, w)).
Proof.
  split; [|split].
  - intros others w. apply CloseReads_stop_sendings.
  - intros w Hopen Honce Hsend.
    rewrite (CloseRead_fires _ Hopen Honce). cbn [fst snd].
    split; [|split].
    + unfold CloseRead_func1.
      destruct (WriteMsg stop_sending (stream (r w))) as [err s1].
      cbn in Hsend. subst err. cbn [stream r set_stream call].
      destruct (stateHandler_CloseRead s1) as [st s2].
      destruct (channelState_eqb st stateClosed); reflexivity.
    + change (stop_sendings (set_closeOnce true (snd (CloseRead_func1 w))))
        with (stop_sendings (snd (CloseRead_func1 w))).
      apply CloseRead_func1_sends.
    + intros other. apply CloseRead_done. reflexivity.
  - intros w. apply CloseRead_closed.
Qed.

(** C9 (amended): when the send of the stop-sending frame fails,
    [CloseRead] returns the send error wrapped with context and does not
    apply the local read-closed transition; the latch has fired all the
    same, so every later call of [CloseRead] returns success without
    sending and without applying the transition. *)
Theorem CloseRead_send_failure (w : World) e s1 :
  isClosed (stream (r w)) = false ->
  closeOnce (r w) = false ->
  WriteMsg stop_sending (stream (r w)) = (Some e, s1) ->
  let w1 :=
    set_closeOnce true (call (CallWriteMsg stop_sending) (set_stream s1 w)) in
  CloseRead w =
    (Some (fmt_Errorf_w "could not close stream for reading" e), w1) /\
  stream (r w1) = s1 /\
  transitions w1 = transitions w /\
  forall other,
    CloseRead (meantime other w1) = (None, meantime other w1).
Proof.
  intros Hopen Honce Hsend w1.
  split; [|split; [|split]].
  - rewrite (CloseRead_fires _ Hopen Honce).
    unfold CloseRead_func1. rewrite Hsend. reflexivity.
  - reflexivity.
  - unfold transitions, w1. cbn [calls set_closeOnce call set_stream].
    rewrite filter_app, length_app. cbn. lia.
  - intros other. apply CloseRead_done. reflexivity.
Qed.

End CloseReadLatch.

(* ===================================================================== *)
(** ** The properties on scripted streams                                 *)
(* ===================================================================== *)

(** The scenario of the specification: the remote sends "hello", then the
    completion flag; a first call fills a slice of five bytes, a second
    returns zero bytes and [io.EOF]. *)
Example scenario_hello_then_completion :
  fst (fst (Reads [Fake.dest 5; Fake.dest 5]
              (Fake.reader (Fake.fresh [])
                 [Fake.frame None (Some Fake.hello);
                  Fake.frame (Some Message_FIN) None] [] None)))
  = [(5, None, Fake.hello); (0, Some io_EOF, Fake.dest 5)].
Proof. vm_compute. reflexivity. Qed.

(** C1: [SetReadDeadline] sets a deadline already in the past on a reader
    whose stream, still open, has a stored close cause: the next [Read]
    returns zero bytes and [os.ErrDeadlineExceeded], not the close cause;
    it does not call the Frame Source. *)
Theorem Read_elapsed_deadline_hides_close_cause :
  let w0 := Fake.reader Fake.closing [Fake.frame None (Some Fake.hello)] []
              None in
  let w := snd (SetReadDeadline (-1)%Z w0) in
  isClosed (stream (r w)) = false /\
  closeErr_Get (stream (r w)) = (Some (errors_New "stream reset"), true) /\
  deadline_elapsed w = true /\
  Read (Fake.dest 5) w =
    Returns 0 (Some os_ErrDeadlineExceeded) (Fake.dest 5) w /\
  calls w = [CallSetReadDeadline (-1)%Z].
Proof. vm_compute. auto 6. Qed.

(** Frames of the scripted stream that carry no flag, or stop-sending,
    leave the stream open for reading. *)
Lemma frame_undisturbed flag p :
  match flag with
  | Some Message_FIN | Some Message_RESET => False
  | _ => True
  end ->
  undisturbed (Fake.frame flag p).
Proof.
  intros Hflag s [Hopen Hallow].
  split; [split; assumption|].
  intros msg fl [= <-] Hfl. cbn in Hfl. subst flag.
  destruct fl; try contradiction.
  destruct s as [c ce st ws sn]. cbn in Hopen, Hallow. subst c.
  destruct st; try discriminate; split; reflexivity.
Qed.

(** "he", an empty payload with stop-sending, then "llo", read through
    slices of 1, 3, 2, 4, 1 and 1 bytes under a deadline that is not
    reached: the caller gets "hello". *)
Lemma Reads_in_order_witness :
  let w := Fake.reader (Fake.fresh [])
             [Fake.frame None (Some (list_byte_of_string "he"));
              Fake.frame (Some Message_STOP_SENDING) (Some []);
              Fake.frame None (Some (list_byte_of_string "llo"))]
             [] (Some 10%Z) in
  let dests := [Fake.dest 1; Fake.dest 3; Fake.dest 2; Fake.dest 4;
                Fake.dest 1; Fake.dest 1] in
  delivered (fst (fst (Reads dests w))) = Fake.hello.
Proof.
  intros w dests.
  assert (reading w) as Hr.
  { split; [split; reflexivity|]. split; [|split].
    - repeat (constructor; [eexists; eexists; split; reflexivity|]).
      constructor.
    - repeat (constructor; [apply frame_undisturbed; exact I|]).
      constructor.
    - cbn. repeat split; reflexivity. }
  pose proof (Reads_in_order dests Hr) as Hthm.
  destruct (Reads dests w) as [[results blocked] w'].
  destruct Hthm as (_ & _ & _ & Hall).
  apply Hall.
  - repeat (constructor; [cbn; lia|]). constructor.
  - vm_compute. lia.
Defined.

(** With "hello" buffered, a slice of two bytes gets "he" at once; "llo"
    stays buffered. *)
Lemma Read_partial_witness :
  let w := Fake.reader (Fake.fresh []) [] Fake.hello None in
  Read (Fake.dest 2) w =
  Returns 2 None (list_byte_of_string "he")
    (set_Buffer (list_byte_of_string "llo") w).
Proof.
  intros w.
  destruct (Read_partial (Fake.dest 2) w w) as [_ Hthm].
  destruct Hthm as (E & _ & _).
  - apply iterates_refl.
  - reflexivity.
  - reflexivity.
  - left. vm_compute. lia.
  - exact E.
Defined.

(** C3 as stated fails: the remote sends "hiya" with the completion flag in
    one frame and the caller reads two bytes at a time; the second call
    copies two bytes, which empties the buffer of a stream on which reading
    is no longer permitted, and returns them with [io.EOF], not with a nil
    error. *)
Lemma Read_partial_counterexample :
  let b := Fake.dest 2 in
  let w0 := Fake.reader (Fake.fresh [])
              [Fake.frame (Some Message_FIN)
                 (Some (list_byte_of_string "hiya"))] [] None in
  let w := world_after (Read b w0) in
  Read b w0 = Returns 2 None (list_byte_of_string "hi") w /\
  Read b w =
    Returns 2 (Some io_EOF) (list_byte_of_string "ya") (set_Buffer [] w) /\
  ~ (0 < snd (copy b (Buffer (state (r w)))) \/ length b = 0 ->
     exists b' w',
       Read b w = Returns (snd (copy b (Buffer (state (r w))))) None b' w').
Proof.
  split; [vm_compute; reflexivity|].
  split; [vm_compute; reflexivity|].
  intros C. destruct C as (b' & w' & E).
  - left. vm_compute. lia.
  - vm_compute in E. discriminate.
Qed.

(** The remote has completed and nothing is buffered: [io.EOF], call
    after call. *)
Lemma Read_end_of_stream_witness :
  let w := Fake.reader Fake.completed [] [] (Some 7%Z) in
  Read (Fake.dest 5) w = Returns 0 (Some io_EOF) (Fake.dest 5) w /\
  Read (Fake.dest 3) (set_deadline None w) =
    Returns 0 (Some io_EOF) (Fake.dest 3) (set_deadline None w).
Proof.
  intros w.
  destruct (Read_end_of_stream (b := Fake.dest 5) (w := w) (w1 := w))
    as [E Hnext].
  - apply iterates_refl.
  - reflexivity.
  - reflexivity.
  - reflexivity.
  - reflexivity.
  - split; [exact E|].
    apply (Hnext (Fake.dest 3) (set_deadline None w)); reflexivity.
Defined.

(** C4 as stated fails: the remote sends "hello" with the completion flag
    in one frame; a first call takes two bytes; in the second the copy
    empties the buffer, reading is no longer permitted and no close cause
    is stored: the call returns the three bytes with [io.EOF], not zero
    bytes; the call after it returns zero bytes with [io.EOF]. *)
Lemma Read_end_of_stream_counterexample :
  let b := Fake.dest 5 in
  let w0 := Fake.reader (Fake.fresh [])
              [Fake.frame (Some Message_FIN) (Some Fake.hello)] [] None in
  let w := world_after (Read (Fake.dest 2) w0) in
  skipn (snd (copy b (Buffer (state (r w))))) (Buffer (state (r w))) = [] /\
  AllowRead (stream (r w)) = false /\
  fst (closeErr_Get (stream (r w))) = None /\
  Read b w =
    Returns 3 (Some io_EOF)
      (list_byte_of_string "llo" ++ Fake.dest 2) (set_Buffer [] w) /\
  Read b (set_Buffer [] w) = Returns 0 (Some io_EOF) b (set_Buffer [] w) /\
  ~ (exists b' w', Read b w = Returns 0 (Some io_EOF) b' w').
Proof.
  repeat split; try (vm_compute; reflexivity).
  intros (b' & w' & E). vm_compute in E. discriminate.
Qed.

(** An empty frame, then the transport ends: the stream is reset and the
    call fails with [io.ErrClosedPipe]. *)
Lemma Read_transport_end_witness :
  let w := Fake.reader (Fake.fresh [])
             [Fake.frame None None;
              Fake.failure 5 (fmt_Errorf_w "read" io_EOF)] [] None in
  exists w',
    Read (Fake.dest 4) w = Returns 0 (Some io_ErrClosedPipe) (Fake.dest 4) w' /\
    isClosed (stream (r w')) = true /\
    calls w' = [CallReadMsg; CallReadMsg; CallReset].
Proof.
  intros w. eexists. split.
  - eapply (Read_transport_end (b := Fake.dest 4) (w := w)).
    + eapply iterates_step; [lazy; reflexivity|apply iterates_refl].
    + reflexivity.
    + reflexivity.
    + reflexivity.
    + reflexivity.
  - split; reflexivity.
Defined.

(** The receive times out on a stream with a stored close cause: the
    close cause is returned. *)
Lemma Read_receive_error_witness :
  let w := Fake.reader Fake.closing
             [Fake.failure 3 os_ErrDeadlineExceeded] [] (Some 3%Z) in
  exists w',
    Read (Fake.dest 4) w =
      Returns 0 (Some (errors_New "stream reset")) (Fake.dest 4) w' /\
    now w' = 3%Z.
Proof.
  intros w.
  destruct (Read_receive_error (b := Fake.dest 4) (w := w) (w1 := w)
              (rcv := Fake.failure 3 os_ErrDeadlineExceeded) (rest := [])
              (readErr := os_ErrDeadlineExceeded)) as [Hdeadline _].
  - apply iterates_refl.
  - reflexivity.
  - reflexivity.
  - reflexivity.
  - reflexivity.
  - destruct (Hdeadline eq_refl) as [Hcause _].
    eexists. split; [apply Hcause; reflexivity|reflexivity].
Defined.

(** Another context closes the read side while the receive is blocked; the
    frame that then arrives carries "late" and stop-sending: the payload is
    dropped, the flag is processed. *)
Lemma Read_frame_received_witness :
  let late :=
    mkReceive 2%Z (fun s => snd (Fake.closeRead s))
      (inl (mkMessage (Some Message_STOP_SENDING)
              (Some (list_byte_of_string "late")))) in
  let w := Fake.reader (Fake.fresh []) [late] [] None in
  exists w3,
    Read_iteration (Fake.dest 4) w = Continue (Fake.dest 4) w3 /\
    Buffer (state (r w3)) = [] /\
    Fake.handler (stream (r w3)) = stateClosed /\
    calls w3 = [CallReadMsg; CallProcessIncomingFlag Message_STOP_SENDING].
Proof.
  intros late w.
  destruct (Read_frame_received (b := Fake.dest 4) (w := w) (w1 := w)
              (rcv := late) (rest := [])
              (msg := mkMessage (Some Message_STOP_SENDING)
                        (Some (list_byte_of_string "late"))))
    as (w3 & E & _ & Hbuf & Hstream & Hcalls).
  - apply iterates_refl.
  - reflexivity.
  - reflexivity.
  - reflexivity.
  - exists w3. split; [exact E|]. split; [exact Hbuf|].
    split; [rewrite Hstream; reflexivity|exact Hcalls].
Defined.

(** On a fresh stream the first [CloseRead] sends one frame, the second
    none; on a reset stream [CloseRead] does nothing. *)
Lemma CloseRead_once_witness :
  let w := Fake.reader (Fake.fresh []) [] [] None in
  fst (CloseRead w) = None /\
  stop_sendings (snd (CloseRead w)) = 1 /\
  CloseRead (snd (CloseRead w)) = (None, snd (CloseRead w)) /\
  CloseRead (meantime Reset w) = (None, meantime Reset w).
Proof.
  intros w.
  destruct (CloseRead_once (S := Fake.stream)) as (_ & Hfirst & Hclosed).
  destruct (Hfirst w) as (Herr & Hsent & Hsecond).
  - reflexivity.
  - reflexivity.
  - reflexivity.
  - split; [exact Herr|]. split; [exact Hsent|].
    split; [exact (Hsecond (fun s => s))|].
    apply Hclosed. reflexivity.
Defined.

(** The writer fails once: [CloseRead] returns the wrapped error, and the
    next call returns nil without doing anything. *)
Lemma CloseRead_send_failure_witness :
  let w := Fake.reader (Fake.fresh [Some (errors_New "write failed")])
             [] [] None in
  fst (CloseRead w) =
    Some (fmt_Errorf_w "could not close stream for reading"
            (errors_New "write failed")) /\
  transitions (snd (CloseRead w)) = 0 /\
  CloseRead (snd (CloseRead w)) = (None, snd (CloseRead w)).
Proof.
  intros w.
  destruct (CloseRead_send_failure w
              (e := errors_New "write failed")
              (s1 := Fake.fresh [])) as (E & _ & Htrans & Hnext).
  - reflexivity.
  - reflexivity.
  - reflexivity.
  - rewrite E. cbn [fst snd]. split; [reflexivity|].
    split; [exact Htrans|]. exact (Hnext (fun s => s)).
Defined.

(** C9 as stated fails: after a call whose send failed, a second call,
    whose send would succeed, sends nothing and applies no transition; it
    returns nil and the stream stays open for reading. *)
Lemma CloseRead_retry_counterexample :
  let w := Fake.reader (Fake.fresh [Some (errors_New "write failed")])
             [] [] None in
  let w1 := snd (CloseRead w) in
  let w2 := snd (CloseRead w1) in
  fst (CloseRead w) =
    Some (fmt_Errorf_w "could not close stream for reading"
            (errors_New "write failed")) /\
  isClosed (stream (r w1)) = false /\
  fst (WriteMsg stop_sending (stream (r w1))) = None /\
  fst (CloseRead w1) = None /\
  w2 = w1 /\
  stop_sendings w2 <> stop_sendings w1 + 1 /\
  transitions w2 = 0 /\
  AllowRead (stream (r w2)) = true.
Proof.
  repeat split; try (vm_compute; reflexivity).
  vm_compute. discriminate.
Qed.

(** Two bytes left on a completed stream: the call returns both with
    [io.EOF]. *)
Lemma Read_error_count_witness :
  let w := Fake.reader Fake.completed [] (list_byte_of_string "lo") None in
  2 = 0 \/
  (2 <= length (Fake.dest 2) /\
   Buffer (state (r (set_Buffer [] w))) = [] /\
   AllowRead (stream (r (set_Buffer [] w))) = false /\
   io_EOF = closeErr_or (stream (r (set_Buffer [] w))) io_EOF).
Proof.
  intros w.
  apply (Read_error_count (Fake.dest 2) w (n := 2) (e := io_EOF)
           (b' := list_byte_of_string "lo") (w' := set_Buffer [] w)).
  - cbn. lia.
  - vm_compute. reflexivity.
Defined.

(** C10 as stated fails: the remote sends "hi" with the completion flag in
    one frame; the caller reads with one-byte slices; the second call
    returns one byte together with [io.EOF]. *)
Lemma Read_error_count_counterexample :
  let w := Fake.reader (Fake.fresh [])
             [Fake.frame (Some Message_FIN) (Some (list_byte_of_string "hi"))]
             [] None in
  let results := fst (fst (Reads [Fake.dest 1; Fake.dest 1] w)) in
  results =
    [(1, None, list_byte_of_string "h");
     (1, Some io_EOF, list_byte_of_string "i")] /\
  ~ (forall n err b, In (n, err, b) results -> err <> None -> n = 0).
Proof.
  split; [vm_compute; reflexivity|].
  intros C.
  specialize (C 1 (Some io_EOF) (list_byte_of_string "i")).
  assert (1 = 0) as E; [|discriminate].
  apply C; [vm_compute; auto|discriminate].
Qed.

(* ===================================================================== *)
(** ** What a call of [Read] touches                                      *)
(* ===================================================================== *)

Section ReadFootprint.

Context {S : Type} `{OwningStream S}.
Local Abbreviation World := (@World S).
Local Abbreviation Receive := (@Receive S).

(** The tests before [ReadMsg], one by one. *)
Lemma receives_iff b (w : World) :
  receives b w = true <->
  isClosed (stream (r w)) = false /\
  deadline_elapsed w = false /\
  Buffer (state (r w)) = [] /\
  AllowRead (stream (r w)) = true /\
  b <> [].
Proof.
  split.
  - intros Hrecv.
    destruct (receives_inv _ _ Hrecv) as (Hopen & Hdl & Hbuf & Hallow & Hlen).
    repeat split; try assumption. intros ->. cbn in Hlen. lia.
  - intros (Hopen & Hdl & Hbuf & Hallow & Hb).
    unfold receives. rewrite Hopen, Hdl, Hbuf, Hallow, copy_length.
    destruct b as [|x b]; [contradiction|]. reflexivity.
Qed.

(** An iteration that does not get to [ReadMsg] ends the call, and only
    takes bytes off the buffer. *)
Lemma Read_iteration_at_once b (w : World) :
  receives b w = false ->
  exists n err b',
    Read_iteration b w =
    Done (Returns n err b' (set_Buffer (skipn n (Buffer (state (r w)))) w)).
Proof.
  intros Hrecv.
  destruct (isClosed (stream (r w))) eqn:Hopen.
  { exists 0, (Some io_ErrClosedPipe), b.
    unfold Read_iteration. rewrite Hopen. cbn [skipn].
    rewrite set_Buffer_same. reflexivity. }
  destruct (deadline_elapsed w) eqn:Hdl.
  { exists 0, (Some os_ErrDeadlineExceeded), b.
    unfold Read_iteration, deadline_elapsed in *. rewrite Hopen.
    destruct (getReadDeadline w) as [d has]. rewrite Hdl. cbn [skipn].
    rewrite set_Buffer_same. reflexivity. }
  rewrite (Read_iteration_open _ _ Hopen Hdl).
  unfold receives in Hrecv. rewrite Hopen, Hdl in Hrecv.
  cbn [negb andb] in Hrecv.
  set (read := snd (copy b (Buffer (state (r w))))) in *.
  destruct ((length (skipn read (Buffer (state (r w)))) =? 0)
            && negb (AllowRead (stream (r w)))) eqn:Eeof.
  - eexists _, _, _. apply (Read_func1_end_of_stream _ _ Eeof).
  - cbn [negb andb] in Hrecv. apply negb_false_iff in Hrecv.
    eexists _, _, _. apply (Read_func1_finished _ _ Eeof Hrecv).
Qed.

(** An iteration that goes on has received a message. *)
Lemma Read_iteration_Continue_inv b (w : World) b' w' :
  Read_iteration b w = Continue b' w' ->
  exists rcv rest msg,
    receives b w = true /\
    Reader (state (r w)) = rcv :: rest /\
    outcome rcv = inl msg /\
    w' = flag_processed msg (payload_kept msg (received rcv rest w)).
Proof.
  intros E.
  destruct (receives b w) eqn:Hrecv.
  2:{ destruct (Read_iteration_at_once _ _ Hrecv) as (n & err & b1 & E1).
      rewrite E1 in E. discriminate. }
  destruct (Reader (state (r w))) as [|rcv rest] eqn:Hsrc.
  { rewrite (Read_iteration_blocks _ _ Hrecv Hsrc) in E. discriminate. }
  rewrite (Read_iteration_receive _ _ Hrecv Hsrc) in E. cbn zeta in E.
  destruct (outcome rcv) as [msg|readErr] eqn:Hout.
  - injection E as _ <-. exists rcv, rest, msg. auto.
  - destruct (errors_Is readErr io_EOF); [discriminate|].
    destruct (errors_Is readErr os_ErrDeadlineExceeded); discriminate.
Qed.

(** X1: [Read] calls the Frame Source only when it must: on a closed
    stream, after the deadline, with bytes buffered, when local reading is
    no longer permitted or with an empty slice, the call returns at once;
    it takes the bytes it returns off the buffer and changes nothing else,
    the Frame Source and the owning stream included. *)
Theorem Read_returns_at_once b (w : World) :
  isClosed (stream (r w)) = true \/
  deadline_elapsed w = true \/
  Buffer (state (r w)) <> [] \/
  AllowRead (stream (r w)) = false \/
  b = [] ->
  exists n err b',
    Read b w =
    Returns n err b' (set_Buffer (skipn n (Buffer (state (r w)))) w) /\
    n <= length b.
Proof.
  intros Hcases.
  assert (receives b w = false) as Hrecv.
  { destruct (receives b w) eqn:Hrecv; [exfalso|reflexivity].
    apply receives_iff in Hrecv.
    destruct Hrecv as (Hopen & Hdl & Hbuf & Hallow & Hb).
    destruct Hcases as [E|[E|[E|[E|E]]]]; congruence. }
  destruct (Read_iteration_at_once _ _ Hrecv) as (n & err & b' & E).
  exists n, err, b'.
  assert (Read b w =
          Returns n err b' (set_Buffer (skipn n (Buffer (state (r w)))) w))
    as ERead by (rewrite Read_loop, E; reflexivity).
  split; [exact ERead|]. eapply Read_Returns, ERead.
Qed.

Lemma copy_beyond dst src :
  skipn (snd (copy dst src)) (fst (copy dst src)) =
  skipn (snd (copy dst src)) dst.
Proof.
  unfold copy; cbn -[Nat.min].
  set (n := Nat.min (length dst) (length src)).
  rewrite skipn_app, length_firstn.
  replace (n - Nat.min n (length src)) with 0 by (subst n; lia).
  rewrite (skipn_all2 (firstn n src)) by (rewrite length_firstn; lia).
  reflexivity.
Qed.

Lemma Read_iteration_slice b (w : World) n err b' w' :
  Read_iteration b w = Done (Returns n err b' w') ->
  length b' = length b /\ skipn n b' = skipn n b.
Proof.
  unfold Read_iteration.
  destruct (isClosed _).
  { intros E. injection E as <- _ <- _. auto. }
  destruct (getReadDeadline w) as [d has].
  destruct (has && Before d (now w)).
  { intros E. injection E as <- _ <- _. auto. }
  unfold Read_func1.
  pose proof (copy_fst_length b (Buffer (state (r w)))) as Hlen.
  pose proof (copy_beyond b (Buffer (state (r w)))) as Hskip.
  destruct (copy b (Buffer (state (r w)))) as [b1 read].
  cbn [fst snd] in Hlen, Hskip.
  cbn -[Nat.eqb Nat.ltb skipn].
  destruct (_ && _).
  { intros E. injection E as <- _ <- _. auto. }
  destruct (_ || _).
  { intros E. injection E as <- _ <- _. auto. }
  destruct (Reader (state (r w))) as [|rcv rest]; [discriminate|].
  destruct (outcome rcv) as [msg|readErr]; [discriminate|].
  destruct (errors_Is readErr io_EOF);
    [|destruct (errors_Is readErr os_ErrDeadlineExceeded)];
    intros E; injection E as <- _ <- _; auto.
Qed.

(** X2: [Read] writes into the caller's slice only what it returns: the
    slice keeps its length, and the bytes after the first [n] are as the
    caller left them. *)
Theorem Read_slice b (w : World) n err b' w' :
  Read b w = Returns n err b' w' ->
  length b' = length b /\ skipn n b' = skipn n b.
Proof.
  revert b w n err b' w'.
  apply (Read_induction
    (fun b w o => forall n err b' w',
       o = Returns n err b' w' ->
       length b' = length b /\ skipn n b' = skipn n b)).
  - intros b w o E n err b' w' ->. eapply Read_iteration_slice, E.
  - intros b w w1 _ IH. exact IH.
Qed.

(** X3: a call of [Read] stays blocked only when the Frame Source has
    delivered all it had, every receive having delivered a message; the
    buffer is then empty, the stream open for reading and the caller's
    slice not empty.  So a call returns as soon as a receive fails. *)
Theorem Read_Blocked b (w : World) w' :
  Read b w = Blocked w' ->
  forallb is_message (Reader (state (r w))) = true /\
  Reader (state (r w')) = [] /\
  Buffer (state (r w')) = [] /\
  isClosed (stream (r w')) = false /\
  AllowRead (stream (r w')) = true /\
  b <> [].
Proof.
  revert b w w'.
  apply (Read_induction
    (fun b w o => forall w',
       o = Blocked w' ->
       forallb is_message (Reader (state (r w))) = true /\
       Reader (state (r w')) = [] /\
       Buffer (state (r w')) = [] /\
       isClosed (stream (r w')) = false /\
       AllowRead (stream (r w')) = true /\
       b <> [])).
  - intros b w o E w' ->.
    destruct (receives b w) eqn:Hrecv.
    2:{ destruct (Read_iteration_at_once _ _ Hrecv) as (n & err & b1 & E1).
        rewrite E1 in E. discriminate. }
    pose proof Hrecv as Hinv. apply receives_iff in Hinv.
    destruct Hinv as (Hopen & Hdl & Hbuf & Hallow & Hb).
    destruct (Reader (state (r w))) as [|rcv rest] eqn:Hsrc.
    + rewrite (Read_iteration_blocks _ _ Hrecv Hsrc) in E.
      injection E as <-. cbn. auto 6.
    + rewrite (Read_iteration_receive _ _ Hrecv Hsrc) in E. cbn zeta in E.
      destruct (outcome rcv) as [msg|readErr]; [discriminate|].
      destruct (errors_Is readErr io_EOF);
        [|destruct (errors_Is readErr os_ErrDeadlineExceeded)];
        discriminate.
  - intros b w w1 E IH w' Eo.
    destruct (IH w' Eo) as (Hmsgs & Hrest).
    split; [|exact Hrest].
    destruct (Read_iteration_Continue_inv _ _ E)
      as (rcv & rest & msg & _ & Hsrc & Hout & ->).
    rewrite Hsrc. cbn [forallb]. unfold is_message at 1. rewrite Hout.
    cbn [andb].
    replace rest with
      (Reader (state (r (flag_processed msg
                          (payload_kept msg (received rcv rest w)))))).
    + exact Hmsgs.
    + unfold flag_processed, payload_kept.
      destruct (Flag msg), (AllowRead _ && isSome _); reflexivity.
Qed.

Lemma Read_footprint_refl buf (w : World) :
  Read_footprint 0 w (set_Buffer buf w).
Proof.
  exists [], []. cbn. rewrite app_nil_r, Z.add_0_r. auto 8.
Qed.

Lemma Read_footprint_trans k (w w1 w2 : World) :
  Read_footprint 0 w w1 -> Read_footprint k w1 w2 -> Read_footprint k w w2.
Proof.
  intros (c1 & n1 & Hsrc1 & Hnow1 & Hcalls1 & Hby1 & Hcount1 & Hdl1 & Honce1)
         (c2 & n2 & Hsrc2 & Hnow2 & Hcalls2 & Hby2 & Hcount2 & Hdl2 & Honce2).
  exists (c1 ++ c2), (n1 ++ n2). repeat split.
  - rewrite Hsrc1, Hsrc2. apply app_assoc.
  - rewrite Hnow2, Hnow1. unfold elapsed_total. rewrite fold_right_app.
    clear. induction c1 as [|rcv c1 IH]; cbn; lia.
  - rewrite Hcalls2, Hcalls1. symmetry. apply app_assoc.
  - rewrite forallb_app, Hby1, Hby2. reflexivity.
  - rewrite filter_app, !length_app. lia.
  - congruence.
  - congruence.
Qed.

(** The receive of [rcv], followed by the calls [more] on the owning
    stream, none of them [ReadMsg]. *)
Lemma Read_footprint_received rcv rest more (w w' : World) :
  Reader (state (r w)) = rcv :: rest ->
  Reader (state (r w')) = rest ->
  now w' = (now w + elapsed rcv)%Z ->
  calls w' = (calls w ++ [CallReadMsg]) ++ more ->
  forallb by_Read more = true ->
  filter is_ReadMsg more = [] ->
  deadline (r w') = deadline (r w) ->
  closeOnce (r w') = closeOnce (r w) ->
  Read_footprint 0 w w'.
Proof.
  intros Hsrc Hrest Hnow Hcalls Hby Hnone Hdl Honce.
  exists [rcv], (CallReadMsg :: more). repeat split; try assumption.
  - rewrite Hsrc, Hrest. reflexivity.
  - rewrite Hnow. cbn. lia.
  - rewrite Hcalls, <- app_assoc. reflexivity.
  - cbn. rewrite Hnone. reflexivity.
Qed.

Lemma Read_iteration_footprint b (w : World) :
  match Read_iteration b w with
  | Done (Returns _ _ _ w') => Read_footprint 0 w w'
  | Done (Blocked w') => Read_footprint 1 w w'
  | Continue _ w' => Read_footprint 0 w w'
  end.
Proof.
  destruct (receives b w) eqn:Hrecv.
  2:{ destruct (Read_iteration_at_once _ _ Hrecv) as (n & err & b1 & ->).
      apply Read_footprint_refl. }
  destruct (Reader (state (r w))) as [|rcv rest] eqn:Hsrc.
  { rewrite (Read_iteration_blocks _ _ Hrecv Hsrc).
    exists [], [CallReadMsg]. cbn. rewrite Hsrc, Z.add_0_r. auto 8. }
  rewrite (Read_iteration_receive _ _ Hrecv Hsrc). cbn zeta.
  destruct (outcome rcv) as [msg|readErr].
  - destruct (Flag msg) as [flag|], (AllowRead _ && isSome _);
      [ apply Read_footprint_received
          with (rcv := rcv) (rest := rest)
               (more := [CallProcessIncomingFlag flag])
      | apply Read_footprint_received
          with (rcv := rcv) (rest := rest)
               (more := [CallProcessIncomingFlag flag])
      | apply Read_footprint_received
          with (rcv := rcv) (rest := rest) (more := [])
      | apply Read_footprint_received
          with (rcv := rcv) (rest := rest) (more := []) ];
      try exact Hsrc; try reflexivity; cbn; symmetry; apply app_nil_r.
  - destruct (errors_Is readErr io_EOF);
      [|destruct (errors_Is readErr os_ErrDeadlineExceeded)];
      [ apply Read_footprint_received
          with (rcv := rcv) (rest := rest) (more := [CallReset])
      | apply Read_footprint_received
          with (rcv := rcv) (rest := rest) (more := [])
      | apply Read_footprint_received
          with (rcv := rcv) (rest := rest) (more := []) ];
      try exact Hsrc; try reflexivity; cbn; symmetry; apply app_nil_r.
Qed.

(** X4: a call of [Read] consumes receives from the front of the Frame
    Source, in order, one per [ReadMsg] that returned (a call that stays
    blocked has made one more); besides [ReadMsg] it only calls [Reset] and
    [processIncomingFlag]: never the writer, the state handler's
    transition or [close]; and it leaves the deadline and the latch of
    [CloseRead] alone. *)
Theorem Read_accounts b (w : World) :
  Read_footprint
    (match Read b w with Blocked _ => 1 | Returns _ _ _ _ => 0 end)
    w (world_after (Read b w)).
Proof.
  revert b w.
  apply (Read_induction
    (fun b w o =>
       Read_footprint
         (match o with Blocked _ => 1 | Returns _ _ _ _ => 0 end)
         w (world_after o))).
  - intros b w o E. pose proof (Read_iteration_footprint b w) as Hfp.
    rewrite E in Hfp. destruct o; exact Hfp.
  - intros b w w1 E IH. pose proof (Read_iteration_footprint b w) as Hfp.
    rewrite E in Hfp. eapply Read_footprint_trans; eassumption.
Qed.

End ReadFootprint.

(* ===================================================================== *)
(** ** Deadlines and frames                                               *)
(* ===================================================================== *)

Section DeadlinesAndFrames.

Context {S : Type} `{OwningStream S}.
Local Abbreviation World := (@World S).
Local Abbreviation Receive := (@Receive S).

(** What [SetReadDeadline] changes: the deadline cell, and the owning
    stream through the data channel. *)
Lemma SetReadDeadline_world t (w : World) :
  let w1 := snd (SetReadDeadline t w) in
  getReadDeadline w1 = (t, true) /\
  state (r w1) = state (r w) /\
  closeOnce (r w1) = closeOnce (r w) /\
  now w1 = now w.
Proof.
  unfold SetReadDeadline. cbn [set_deadline stream r].
  destruct (rwc_SetReadDeadline t (stream (r w))) as [err s].
  repeat split; reflexivity.
Qed.


(** The first iteration on an open stream with bytes buffered and a slice
    to fill copies what fits. *)
Lemma Read_buffered b (w : World) :
  isClosed (stream (r w)) = false ->
  deadline_elapsed w = false ->
  Buffer (state (r w)) <> [] ->
  b <> [] ->
  let buf := Buffer (state (r w)) in
  let n := Nat.min (length b) (length buf) in
  0 < n /\
  exists err,
    Read b w =
    Returns n err (firstn n buf ++ skipn n b) (set_Buffer (skipn n buf) w) /\
    (err = None \/
     n = length buf /\ AllowRead (stream (r w)) = false /\
     err = Some (closeErr_or (stream (r w)) io_EOF)).
Proof.
  intros Hopen Hdl Hbuf Hb buf n.
  assert (0 < n) as Hn.
  { subst n buf. destruct b, (Buffer (state (r w))); cbn; try lia;
      contradiction. }
  split; [exact Hn|].
  rewrite Read_loop, (Read_iteration_open _ _ Hopen Hdl).
  destruct ((length (skipn n buf) =? 0) && negb (AllowRead (stream (r w))))
    eqn:Eeof.
  - eexists. split.
    + rewrite (Read_func1_end_of_stream b w Eeof). reflexivity.
    + right. apply andb_true_iff in Eeof. destruct Eeof as [Erest Eallow].
      apply Nat.eqb_eq in Erest. rewrite length_skipn in Erest.
      apply negb_true_iff in Eallow.
      repeat split; try assumption. subst n. lia.
  - eexists. split; [|left; reflexivity].
    rewrite (Read_func1_finished b w Eeof); [reflexivity|].
    change (snd (copy b (Buffer (state (r w))))) with n.
    apply orb_true_iff. left. apply Nat.ltb_lt, Hn.
Qed.

(** X6: a deadline set in the past cancels the next [Read]: on a stream
    that is not closed it returns zero bytes and [os.ErrDeadlineExceeded]
    without looking at the buffer or calling the Frame Source.  A deadline
    set to the present instant or later has not elapsed: buffered bytes are
    returned. *)
Theorem SetReadDeadline_then_Read t b (w : World) :
  let w1 := snd (SetReadDeadline t w) in
  isClosed (stream (r w1)) = false ->
  ((t < now w)%Z ->
   Read b w1 = Returns 0 (Some os_ErrDeadlineExceeded) b w1) /\
  ((now w <= t)%Z ->
   Buffer (state (r w)) <> [] -> b <> [] ->
   let buf := Buffer (state (r w)) in
   let n := Nat.min (length b) (length buf) in
   0 < n /\
   exists err,
     Read b w1 =
     Returns n err (firstn n buf ++ skipn n b)
       (set_Buffer (skipn n buf) w1)).
Proof.
  intros w1 Hopen.
  destruct (SetReadDeadline_world t w) as (Hget & Hstate & _ & Hnow).
  fold w1 in Hget, Hstate, Hnow.
  assert (deadline_elapsed w1 = Before t (now w)) as Hdl.
  { unfold deadline_elapsed. rewrite Hget, Hnow. reflexivity. }
  split.
  - intros Hpast. apply Read_deadline_elapsed;
      [apply iterates_refl|exact Hopen|].
    rewrite Hdl. apply Z.ltb_lt, Hpast.
  - intros Hfuture Hbuf Hb buf n.
    assert (deadline_elapsed w1 = false) as Hin
      by (rewrite Hdl; apply Z.ltb_ge, Hfuture).
    destruct (Read_buffered (b := b) w1 Hopen Hin) as [Hn Hread].
    + rewrite Hstate. exact Hbuf.
    + exact Hb.
    + rewrite Hstate in Hn, Hread. split; [exact Hn|].
      destruct Hread as (err & E & _). exists err. exact E.
Qed.

(** The world after the iteration that receives [msg] from [rcv]. *)
Lemma Read_iteration_message b (w : World) rcv rest msg :
  isClosed (stream (r w)) = false ->
  deadline_elapsed w = false ->
  Buffer (state (r w)) = [] ->
  AllowRead (stream (r w)) = true ->
  b <> [] ->
  Reader (state (r w)) = rcv :: rest ->
  outcome rcv = inl msg ->
  Read_iteration b w =
  Continue b (flag_processed msg (payload_kept msg (received rcv rest w))).
Proof.
  intros Hopen Hdl Hbuf Hallow Hb Hsrc Hout.
  assert (receives b w = true) as Hrecv by (apply receives_iff; auto).
  rewrite (Read_iteration_receive _ _ Hrecv Hsrc). cbn zeta.
  rewrite Hout. reflexivity.
Qed.

(** X7: a frame that carries neither a payload nor a flag is skipped:
    [Read] goes on as if called after the receive. *)
Theorem Read_skips_empty_frame b (w : World) rcv rest msg :
  isClosed (stream (r w)) = false ->
  deadline_elapsed w = false ->
  Buffer (state (r w)) = [] ->
  AllowRead (stream (r w)) = true ->
  b <> [] ->
  Reader (state (r w)) = rcv :: rest ->
  outcome rcv = inl msg ->
  Flag msg = None ->
  GetMessage msg = [] ->
  Read b w = Read b (received rcv rest w).
Proof.
  intros Hopen Hdl Hbuf Hallow Hb Hsrc Hout Hflag Hempty.
  rewrite Read_loop,
    (Read_iteration_message w Hopen Hdl Hbuf Hallow Hb Hsrc Hout).
  unfold flag_processed, payload_kept. rewrite Hflag, Hempty, app_nil_r.
  rewrite set_Buffer_same.
  destruct (AllowRead _ && isSome _); reflexivity.
Qed.

Lemma Buffer_after_message (w : World) rcv rest msg p :
  Buffer (state (r w)) = [] ->
  Message msg = Some p ->
  AllowRead (meanwhile rcv (stream (r w))) = true ->
  Buffer (state (r (flag_processed msg
                      (payload_kept msg (received rcv rest w))))) = p.
Proof.
  intros Hbuf Hmsg Hallow.
  unfold flag_processed, payload_kept, GetMessage.
  cbn [received stream r]. rewrite Hallow, Hmsg. cbn [isSome andb].
  destruct (Flag msg); cbn; rewrite Hbuf; reflexivity.
Qed.


(** X9: when the flag of a frame leaves the stream fully closed, the
    payload the same frame carried is not delivered: the call that
    received it, and so every later one, returns zero bytes and
    [io.ErrClosedPipe], the payload staying in the buffer. *)
Theorem Read_drops_payload_of_closing_frame b (w : World) rcv rest msg p :
  isClosed (stream (r w)) = false ->
  deadline_elapsed w = false ->
  Buffer (state (r w)) = [] ->
  AllowRead (stream (r w)) = true ->
  b <> [] ->
  Reader (state (r w)) = rcv :: rest ->
  outcome rcv = inl msg ->
  Message msg = Some p ->
  AllowRead (meanwhile rcv (stream (r w))) = true ->
  let w3 := flag_processed msg (payload_kept msg (received rcv rest w)) in
  isClosed (stream (r w3)) = true ->
  Read b w = Returns 0 (Some io_ErrClosedPipe) b w3 /\
  Buffer (state (r w3)) = p /\
  forall b2, Read b2 w3 = Returns 0 (Some io_ErrClosedPipe) b2 w3.
Proof.
  intros Hopen Hdl Hbuf Hallow Hb Hsrc Hout Hmsg Hmean w3 Hclosed.
  pose proof (@Buffer_after_message w rcv rest msg p Hbuf Hmsg Hmean) as Hbuf3.
  fold w3 in Hbuf3.
  assert (forall b2, Read b2 w3 = Returns 0 (Some io_ErrClosedPipe) b2 w3)
    as Hlater.
  { intros b2. apply Read_closed; [apply iterates_refl|exact Hclosed]. }
  split; [|split; [exact Hbuf3|exact Hlater]].
  rewrite Read_loop,
    (Read_iteration_message w Hopen Hdl Hbuf Hallow Hb Hsrc Hout).
  fold w3. apply Hlater.
Qed.

End DeadlinesAndFrames.

(* ===================================================================== *)
(** ** What [CloseRead] touches                                           *)
(* ===================================================================== *)

Section CloseReadFootprint.

Context {S : Type} `{OwningStream S}.
Local Abbreviation World := (@World S).

Lemma goerror_eqb_refl e : goerror_eqb e e = true.
Proof.
  induction e as [| | |m|m e IH]; cbn; rewrite ?String.eqb_refl; auto.
Qed.

Lemma errors_Is_refl e : errors_Is e e = true.
Proof. destruct e; cbn; rewrite ?String.eqb_refl, ?goerror_eqb_refl; auto. Qed.

Lemma transitions_app (w : World) (c : Call) :
  transitions (call c w) =
  transitions w + (if is_transition c then 1 else 0).
Proof.
  unfold transitions, call. cbn [calls].
  rewrite filter_app, length_app. cbn. destruct (is_transition c); cbn; lia.
Qed.

(** One call: nothing happens, or the latch fires, one stop-sending frame
    is handed to the writer and at most one transition is applied. *)
Lemma CloseRead_counts (w : World) :
  let w1 := snd (CloseRead w) in
  w1 = w \/
  closeOnce (r w) = false /\
  closeOnce (r w1) = true /\
  stop_sendings w1 = stop_sendings w + 1 /\
  transitions w <= transitions w1 <= transitions w + 1.
Proof.
  cbn zeta.
  destruct (isClosed (stream (r w))) eqn:Hclosed.
  { left. rewrite CloseRead_closed by assumption. reflexivity. }
  destruct (closeOnce (r w)) eqn:Honce.
  { left. rewrite CloseRead_done by assumption. reflexivity. }
  right. rewrite CloseRead_fires by assumption. cbn [snd].
  split; [reflexivity|]. split; [reflexivity|]. split.
  - change (stop_sendings (set_closeOnce true (snd (CloseRead_func1 w))))
      with (stop_sendings (snd (CloseRead_func1 w))).
    apply CloseRead_func1_sends.
  - change (transitions (set_closeOnce true (snd (CloseRead_func1 w))))
      with (transitions (snd (CloseRead_func1 w))).
    unfold CloseRead_func1.
    destruct (WriteMsg stop_sending (stream (r w))) as [[e|] s1]; cbn [snd].
    + rewrite transitions_app. cbn. unfold transitions. cbn. lia.
    + cbn [stream r set_stream call].
      destruct (stateHandler_CloseRead s1) as [st s2].
      destruct (channelState_eqb st stateClosed); cbn [snd];
        unfold transitions; cbn [calls call set_stream];
        rewrite !filter_app, !length_app; cbn; lia.
Qed.

(** X10: over any number of calls of [CloseRead], whatever else happens to
    the stream between them, the local read-closed transition is applied
    at most once, and never without a stop-sending frame having been
    handed to the writer first. *)
Theorem CloseReads_transitions others (w : World) :
  let w' := snd (CloseReads others w) in
  transitions w' <= transitions w + (if closeOnce (r w) then 0 else 1) /\
  transitions w' + stop_sendings w <= transitions w + stop_sendings w' /\
  transitions w <= transitions w' /\
  (closeOnce (r w) = true -> closeOnce (r w') = true).
Proof.
  revert w. induction others as [|other others IH]; intros w;
    cbn [CloseReads].
  - cbn. repeat split; auto; lia.
  - fold (meantime other w).
    pose proof (CloseRead_counts (meantime other w)) as Hcall.
    cbn zeta in Hcall.
    destruct (CloseRead (meantime other w)) as [err w1]. cbn [snd] in Hcall.
    specialize (IH w1). cbn zeta in IH.
    destruct (CloseReads others w1) as [errs w2]. cbn [snd] in *.
    change (stop_sendings (meantime other w)) with (stop_sendings w) in Hcall.
    change (transitions (meantime other w)) with (transitions w) in Hcall.
    change (closeOnce (r (meantime other w))) with (closeOnce (r w)) in Hcall.
    destruct IH as (Hmost & Hsent & Hmono & Hkeep).
    destruct Hcall as [->|(Honce & Hdone & Hsend & Htrans)].
    + change (stop_sendings (meantime other w)) with (stop_sendings w) in *.
      change (transitions (meantime other w)) with (transitions w) in *.
      change (closeOnce (r (meantime other w))) with (closeOnce (r w)) in *.
      auto.
    + rewrite Hdone in Hmost. rewrite Honce.
      repeat split; try lia; discriminate.
Qed.

Lemma CloseRead_func1_keeps (w : World) :
  let w1 := snd (CloseRead_func1 w) in
  state (r w1) = state (r w) /\
  deadline (r w1) = deadline (r w) /\
  now w1 = now w /\
  exists new, calls w1 = calls w ++ new /\ forallb by_CloseRead new = true.
Proof.
  unfold CloseRead_func1.
  destruct (WriteMsg stop_sending (stream (r w))) as [[e|] s1]; cbn [snd].
  - repeat split. exists [CallWriteMsg stop_sending]. auto.
  - cbn [stream r set_stream call].
    destruct (stateHandler_CloseRead s1) as [st s2].
    destruct (channelState_eqb st stateClosed); cbn [snd]; repeat split.
    + exists [CallWriteMsg stop_sending; CallStateCloseRead;
              CallClose false true].
      cbn. rewrite <- !app_assoc. auto.
    + exists [CallWriteMsg stop_sending; CallStateCloseRead].
      cbn. rewrite <- !app_assoc. auto.
Qed.

(** X11: no sequence of calls of [CloseRead] touches what [Read] works
    with: the buffered bytes, the Frame Source, the deadline and the clock
    are as before, and the only calls made are on the writer, the state
    handler and [close]: never [ReadMsg], [Reset] or
    [processIncomingFlag]. *)
Theorem CloseReads_keep others (w : World) :
  let w' := snd (CloseReads others w) in
  state (r w') = state (r w) /\
  deadline (r w') = deadline (r w) /\
  now w' = now w /\
  exists new, calls w' = calls w ++ new /\ forallb by_CloseRead new = true.
Proof.
  revert w. induction others as [|other others IH]; intros w;
    cbn [CloseReads].
  - cbn. repeat split. exists []. rewrite app_nil_r. auto.
  - fold (meantime other w).
    assert (let w1 := snd (CloseRead (meantime other w)) in
            state (r w1) = state (r w) /\
            deadline (r w1) = deadline (r w) /\
            now w1 = now w /\
            exists new,
              calls w1 = calls w ++ new /\ forallb by_CloseRead new = true)
      as Hcall.
    { cbn zeta.
      destruct (isClosed (stream (r (meantime other w)))) eqn:Hclosed.
      { rewrite CloseRead_closed by assumption. cbn. repeat split.
        exists []. rewrite app_nil_r. auto. }
      destruct (closeOnce (r (meantime other w))) eqn:Honce.
      { rewrite CloseRead_done by assumption. cbn. repeat split.
        exists []. rewrite app_nil_r. auto. }
      rewrite CloseRead_fires by assumption. cbn [snd].
      apply (CloseRead_func1_keeps (meantime other w)). }
    cbn zeta in Hcall.
    destruct (CloseRead (meantime other w)) as [err w1]. cbn [snd] in Hcall.
    specialize (IH w1). cbn zeta in IH.
    destruct (CloseReads others w1) as [errs w2]. cbn [snd] in *.
    destruct Hcall as (Hst1 & Hdl1 & Hnow1 & new1 & Hcalls1 & Hby1).
    destruct IH as (Hst2 & Hdl2 & Hnow2 & new2 & Hcalls2 & Hby2).
    repeat split; try congruence.
    exists (new1 ++ new2). rewrite Hcalls2, Hcalls1, <- app_assoc.
    split; [reflexivity|]. rewrite forallb_app, Hby1, Hby2. reflexivity.
Qed.

(** X12: [CloseRead] returns an error only when it sent the stop-sending
    frame and the send failed; the error wraps the writer's, which
    [errors.Is] still finds in it; on a closed stream and once the latch
    has fired it returns nil. *)
Theorem CloseRead_error (w : World) err :
  fst (CloseRead w) = Some err ->
  isClosed (stream (r w)) = false /\
  closeOnce (r w) = false /\
  exists e,
    fst (WriteMsg stop_sending (stream (r w))) = Some e /\
    err = fmt_Errorf_w "could not close stream for reading" e /\
    errors_Is err e = true.
Proof.
  destruct (isClosed (stream (r w))) eqn:Hclosed.
  { rewrite CloseRead_closed by assumption. discriminate. }
  destruct (closeOnce (r w)) eqn:Honce.
  { rewrite CloseRead_done by assumption. discriminate. }
  rewrite CloseRead_fires by assumption. cbn [fst].
  unfold CloseRead_func1.
  destruct (WriteMsg stop_sending (stream (r w))) as [[e|] s1]; cbn [fst].
  - intros [= <-]. repeat split. exists e. repeat split.
    cbn [errors_Is]. rewrite errors_Is_refl. apply orb_true_r.
  - cbn [stream r set_stream call].
    destruct (stateHandler_CloseRead s1) as [st s2].
    destruct (channelState_eqb st stateClosed); discriminate.
Qed.

End CloseReadFootprint.

(* ===================================================================== *)
(** ** The further properties on scripted streams                         *)
(* ===================================================================== *)

(** The remote has completed: a frame still pending is never received. *)
Lemma Read_returns_at_once_witness :
  let w := Fake.reader Fake.completed [Fake.frame None (Some Fake.hello)]
             [] None in
  exists n err b',
    Read (Fake.dest 3) w =
    Returns n err b' (set_Buffer (skipn n (Buffer (state (r w)))) w) /\
    n <= length (Fake.dest 3).
Proof.
  intros w.
  apply (@Read_returns_at_once Fake.stream Fake.owning (Fake.dest 3) w).
  right. right. right. left. reflexivity.
Defined.

(** Two bytes into a slice of five: the last three are untouched. *)
Lemma Read_slice_witness :
  let b := list_byte_of_string "....." in
  let w := Fake.reader (Fake.fresh []) [] (list_byte_of_string "hi") None in
  length (list_byte_of_string "hi...") = length b /\
  skipn 2 (list_byte_of_string "hi...") = skipn 2 b.
Proof.
  intros b w.
  apply (@Read_slice Fake.stream Fake.owning b w 2 None
           (list_byte_of_string "hi...") (set_Buffer [] w)).
  vm_compute. reflexivity.
Defined.

(** One empty frame and nothing after it: the call stays blocked. *)
Lemma Read_Blocked_witness :
  let w := Fake.reader (Fake.fresh []) [Fake.frame None None] [] None in
  let w' := world_after (Read (Fake.dest 1) w) in
  forallb is_message (Reader (state (r w))) = true /\
  Reader (state (r w')) = [] /\
  Buffer (state (r w')) = [] /\
  isClosed (stream (r w')) = false /\
  AllowRead (stream (r w')) = true /\
  Fake.dest 1 <> [].
Proof.
  intros w w'.
  apply (@Read_Blocked Fake.stream Fake.owning (Fake.dest 1) w w').
  vm_compute. reflexivity.
Defined.

(** A deadline one unit in the past: "hello" is buffered and not returned. *)
Lemma SetReadDeadline_then_Read_witness :
  let w := Fake.reader (Fake.fresh []) [] Fake.hello None in
  let w1 := snd (SetReadDeadline (-1)%Z w) in
  Read (Fake.dest 5) w1 =
  Returns 0 (Some os_ErrDeadlineExceeded) (Fake.dest 5) w1.
Proof.
  intros w w1.
  destruct (@SetReadDeadline_then_Read Fake.stream Fake.owning
              (-1)%Z (Fake.dest 5) w) as [Hpast _].
  - reflexivity.
  - apply Hpast. reflexivity.
Defined.

(** An empty frame before "hello". *)
Lemma Read_skips_empty_frame_witness :
  let w := Fake.reader (Fake.fresh [])
             [Fake.frame None None; Fake.frame None (Some Fake.hello)]
             [] None in
  Read (Fake.dest 5) w =
  Read (Fake.dest 5)
    (received (Fake.frame None None) [Fake.frame None (Some Fake.hello)] w).
Proof.
  intros w.
  apply (@Read_skips_empty_frame Fake.stream Fake.owning (Fake.dest 5) w
           (Fake.frame None None) [Fake.frame None (Some Fake.hello)]
           (mkMessage None None));
    try reflexivity.
  discriminate.
Defined.


(** The write side is already closed when "hello" arrives with the
    completion flag: the stream is then fully closed and "hello" is never
    delivered. *)
Lemma Read_drops_payload_of_closing_frame_witness :
  let rcv := Fake.frame (Some Message_FIN) (Some Fake.hello) in
  let s := Fake.processFlag Message_STOP_SENDING (Fake.fresh []) in
  let w := Fake.reader s [rcv] [] None in
  exists w3,
    Read (Fake.dest 5) w =
      Returns 0 (Some io_ErrClosedPipe) (Fake.dest 5) w3 /\
    Buffer (state (r w3)) = Fake.hello /\
    forall b2, Read b2 w3 = Returns 0 (Some io_ErrClosedPipe) b2 w3.
Proof.
  intros rcv s w. eexists.
  apply (@Read_drops_payload_of_closing_frame Fake.stream Fake.owning
           (Fake.dest 5) w rcv []
           (mkMessage (Some Message_FIN) (Some Fake.hello)) Fake.hello);
    try reflexivity.
  discriminate.
Defined.

(** Three calls on a fresh stream: one transition; once the latch has
    fired it stays fired. *)
Lemma CloseReads_transitions_witness :
  let w := Fake.reader (Fake.fresh []) [] [] None in
  let others := [fun s => s; fun s => s; Fake.reset] in
  transitions (snd (CloseReads others w)) <= 1 /\
  closeOnce (r (snd (CloseReads others (snd (CloseRead w))))) = true.
Proof.
  intros w others. split.
  - apply (@CloseReads_transitions Fake.stream Fake.owning others w).
  - apply (@CloseReads_transitions Fake.stream Fake.owning others
             (snd (CloseRead w))). reflexivity.
Defined.

(** The writer fails: the error returned wraps the writer's. *)
Lemma CloseRead_error_witness :
  let w := Fake.reader (Fake.fresh [Some (errors_New "write failed")])
             [] [] None in
  let err := fmt_Errorf_w "could not close stream for reading"
               (errors_New "write failed") in
  isClosed (stream (r w)) = false /\
  closeOnce (r w) = false /\
  exists e,
    fst (WriteMsg stop_sending (stream (r w))) = Some e /\
    err = fmt_Errorf_w "could not close stream for reading" e /\
    errors_Is err e = true.
Proof.
  intros w err.
  apply (@CloseRead_error Fake.stream Fake.owning w err). reflexivity.
Defined.
